(** * Viterbi decoding for a discrete hidden Markov model

    A shallow embedding of [viterbi] from [Viterbi.ipynb] and of the NumPy
    array operations it is written with, followed by the properties of the
    decoder.

    The function works on [numpy] arrays of IEEE doubles.  The embedding is
    written once over an abstract scalar type (multiplication, the constant
    zero and the comparison [<]) and instantiated with binary64 floats,
    which is what the notebook runs on, and with canonical rationals.  No
    law of arithmetic is assumed of the scalars: the general statements hold
    for both instances, and what depends on the values is evaluated on
    them.  NaN is outside the model: the reductions below are the comparison
    loops of NumPy on NaN-free data.  Among equal greatest items the model
    keeps the first one; NumPy's reduction may keep another one, which shows
    only in the sign of a maximum that is zero. *)

From Stdlib Require Import ZArith QArith Qcanon PrimFloat Lia.
From stdpp Require Import base tactics option list gmap.

Set Warnings "-inexact-float".

(** ** Scalars *)

Class Scalar := {
  num : Type;
  szero : num;
  smul : num → num → num;
  sltb : num → num → bool
}.

#[export] Instance num_inhabited `{Scalar} : Inhabited num := populate szero.

Definition sle `{Scalar} (x y : num) : Prop := sltb y x = false.

(** binary64, the ['d'] dtype of the score table. *)
Definition float64 : Scalar :=
  {| num := float; szero := 0%float; smul := PrimFloat.mul; sltb := PrimFloat.ltb |}.

(** Exact rational arithmetic. *)
Definition Qc_ltb (x y : Qc) : bool := negb (Qle_bool y x).

Definition rational : Scalar :=
  {| num := Qc; szero := 0%Qc; smul := Qcmult; sltb := Qc_ltb |}.

(** ** Python exceptions *)

Inductive exn := IndexError | ValueError | TypeError | OverflowError.

Inductive result (A : Type) :=
  | Ok (a : A)
  | Raise (e : exn).
Arguments Ok {A} a.
Arguments Raise {A} e.

#[export] Instance result_ret : MRet result := λ A, @Ok A.
#[export] Instance result_bind : MBind result := λ A B f r,
  match r with Ok a => f a | Raise e => Raise e end.

(** [for x in xs: s = body(x, s)] *)
Fixpoint for_ {X S : Type} (xs : list X) (s : S) (body : X → S → result S) : result S :=
  match xs with
  | [] => Ok s
  | x :: xs' => s' ← body x s; for_ xs' s' body
  end.

(** [range(a, b)] *)
Definition range (a b : nat) : list nat := seq a (b - a).

(** ** NumPy arrays

    A one-dimensional array is the list of its items; a two-dimensional
    array of shape [(shape0, shape1)] is the list of its [shape0] rows, each
    of length [shape1]. *)

Record array2 (A : Type) := Array2 { shape1 : nat; rows : list (list A) }.
Arguments Array2 {A} shape1 rows.
Arguments shape1 {A} a.
Arguments rows {A} a.

Definition shape0 {A} (M : array2 A) : nat := length (rows M).

Definition wf_array2 {A} (M : array2 A) : Prop :=
  Forall (λ r, length r = shape1 M) (rows M).

(** [np.array([[...], ...])] *)
Definition np_array {A} (l : list (list A)) : array2 A :=
  Array2 (length (default [] (head l))) l.

(** [np.zeros((K, T))] and [np.zeros(T)] *)
Definition np_zeros2 {A} (K T : nat) (z : A) : array2 A :=
  Array2 T (replicate K (replicate T z)).
Definition np_zeros1 {A} (T : nat) (z : A) : list A := replicate T z.

(** An index into a Python sequence of length [n]: negative indices count
    from the end, anything outside [-n, n) raises [IndexError]. *)
Definition py_index (n : nat) (i : Z) : result nat :=
  if decide (0 ≤ i < Z.of_nat n)%Z then Ok (Z.to_nat i)
  else if decide (- Z.of_nat n ≤ i < 0)%Z then Ok (Z.to_nat (i + Z.of_nat n))
  else Raise IndexError.

(** The Python integers that NumPy can convert to its index type, a signed
    integer of 64 bits. *)
Definition intp_fits (i : Z) : Prop := (- 2 ^ 63 ≤ i < 2 ^ 63)%Z.

(** The exception of NumPy for an index that is not in an axis: an integer
    that does not fit the index type raises [OverflowError], any other
    [IndexError]. *)
Definition index_error (i : Z) : exn :=
  if decide (intp_fits i) then IndexError else OverflowError.

(** An index into an axis of length [n] of a NumPy array: as for a Python
    sequence, with the exception of NumPy outside [-n, n).  (NumPy converts
    the integer first; an axis is shorter than [2 ^ 63], so an index inside
    the axis fits.) *)
Definition np_index (n : nat) (i : Z) : result nat :=
  match py_index n i with
  | Ok j => Ok j
  | Raise _ => Raise (index_error i)
  end.

(** [v[i]] on a Python list *)
Definition getitem `{Inhabited A} (v : list A) (i : Z) : result A :=
  j ← py_index (length v) i; Ok (v !!! j).

(** [v[i]] on a one-dimensional array *)
Definition np_getitem `{Inhabited A} (v : list A) (i : Z) : result A :=
  j ← np_index (length v) i; Ok (v !!! j).

(** [v[i] = x] on a one-dimensional array *)
Definition setitem {A} (v : list A) (i : Z) (x : A) : result (list A) :=
  j ← np_index (length v) i; Ok (<[j:=x]> v).

Definition column `{Inhabited A} (j : nat) (M : array2 A) : list A :=
  (λ r, r !!! j) <$> rows M.

(** [M[:, i]] *)
Definition getitem_col `{Inhabited A} (M : array2 A) (i : Z) : result (list A) :=
  j ← np_index (shape1 M) i; Ok (column j M).

(** [M[r, c]] *)
Definition getitem2 `{Inhabited A} (M : array2 A) (r c : Z) : result A :=
  i ← np_index (shape0 M) r; j ← np_index (shape1 M) c; Ok ((rows M !!! i) !!! j).

(** Broadcasting of two axis lengths: equal, or one of them is 1. *)
Definition broadcast_dim (m n : nat) : result nat :=
  if decide (m = n) then Ok m
  else if decide (m = 1) then Ok n
  else if decide (n = 1) then Ok m
  else Raise ValueError.

(** An axis of length 1 repeated to length [n]; other axes are left alone. *)
Definition stretch `{Inhabited A} (n : nat) (v : list A) : list A :=
  if decide (length v = n) then v else replicate n (v !!! 0).

(** [M[:, i] = v]: the value is broadcast to the column. *)
Definition setitem_col `{Inhabited A} (M : array2 A) (i : Z) (v : list A) : result (array2 A) :=
  j ← np_index (shape1 M) i;
  if decide (length v = shape0 M ∨ length v = 1)
  then Ok (Array2 (shape1 M) (zip_with (λ r x, <[j:=x]> r) (rows M) (stretch (shape0 M) v)))
  else Raise ValueError.

(** [M[:, i] = x] for a scalar [x] *)
Definition setitem_col_scalar {A} (M : array2 A) (i : Z) (x : A) : result (array2 A) :=
  j ← np_index (shape1 M) i;
  Ok (Array2 (shape1 M) (((λ r, <[j:=x]> r)) <$> rows M)).

(** [M.T] *)
Definition transpose `{Inhabited A} (M : array2 A) : array2 A :=
  Array2 (shape0 M) ((λ j, column j M) <$> seq 0 (shape1 M)).

(** [v[np.newaxis, :]] *)
Definition newaxis {A} (v : list A) : array2 A := Array2 (length v) [v].

Section numeric.
Context `{Scalar}.

(** [u * v] on one-dimensional arrays *)
Definition mul1 (u v : list num) : result (list num) :=
  n ← broadcast_dim (length u) (length v);
  Ok (zip_with smul (stretch n u) (stretch n v)).

(** [X * Y] on two-dimensional arrays *)
Definition mul2 (X Y : array2 num) : result (array2 num) :=
  r ← broadcast_dim (shape0 X) (shape0 Y);
  c ← broadcast_dim (shape1 X) (shape1 Y);
  Ok (Array2 c (zip_with (λ rx ry, zip_with smul (stretch c rx) (stretch c ry))
                         (stretch r (rows X)) (stretch r (rows Y)))).

(** [v * X] for one-dimensional [v]: [v] is read as an array of shape
    [(1, len v)]. *)
Definition mul12 (v : list num) (X : array2 num) : result (array2 num) :=
  mul2 (newaxis v) X.

(** The running maximum of a comparison loop, started at [m]. *)
Definition max_from (m : num) (l : list num) : num :=
  foldl (λ m x, if sltb m x then x else m) m l.

Definition amax (l : list num) : num :=
  match l with [] => szero | x :: l' => max_from x l' end.

(** The index of the first maximum: the candidate at position [i] replaces
    the current best only when it is strictly greater. *)
Fixpoint argmax_from (best : num) (bi i : nat) (l : list num) : nat :=
  match l with
  | [] => bi
  | x :: l' =>
      if sltb best x then argmax_from x i (S i) l' else argmax_from best bi (S i) l'
  end.

Definition argmax (l : list num) : nat :=
  match l with [] => 0 | x :: l' => argmax_from x 0 1 l' end.

(** [np.max(X, 1)]: a reduction over an axis of length 0 is an error. *)
Definition np_max_axis1 (X : array2 num) : result (list num) :=
  if decide (shape1 X = 0) then Raise ValueError else Ok (amax <$> rows X).

(** [np.argmax(X, 1)] *)
Definition np_argmax_axis1 (X : array2 num) : result (list nat) :=
  if decide (shape1 X = 0) then Raise ValueError else Ok (argmax <$> rows X).

(** [np.argmax(v)] *)
Definition np_argmax (v : list num) : result nat :=
  match v with [] => Raise ValueError | _ => Ok (argmax v) end.

(** The builtin [max(v)] *)
Definition py_max (v : list num) : result num :=
  match v with [] => Raise ValueError | _ => Ok (amax v) end.

(** A value stored into an array of dtype ['B'] (unsigned byte). *)
Definition to_uint8 (n : nat) : Z := (Z.of_nat n mod 256)%Z.

(** *** The forward pass: the two tracking tables

    Each assignment of the source is a function from the arrays it reads to
    the new contents of the array it writes. *)

(** [T1[:,0] = initial_state * emission_matrix[:, y[0]]] *)
Definition assign_initial_scores (y : list Z) (emission_matrix : array2 num)
    (initial_state : list num) (T1 : array2 num) : result (array2 num) :=
  y0 ← getitem y 0;
  e0 ← getitem_col emission_matrix y0;
  v ← mul1 initial_state e0;
  setitem_col T1 0 v.

(** [T1[:,i] = np.max(T1[:, i - 1] * transition_matrix.T
                      * emission_matrix[np.newaxis, :, y[i]].T, 1)] *)
Definition assign_scores (y : list Z) (transition_matrix emission_matrix : array2 num)
    (i : nat) (T1 : array2 num) : result (array2 num) :=
  prev ← getitem_col T1 (Z.of_nat i - 1);
  X ← mul12 prev (transpose transition_matrix);
  yi ← getitem y (Z.of_nat i);
  e ← getitem_col emission_matrix yi;
  P ← mul2 X (transpose (newaxis e));
  m ← np_max_axis1 P;
  setitem_col T1 (Z.of_nat i) m.

(** [T2[:,i] = np.argmax(T1[:,i-1]*transition_matrix.T, 1)] *)
Definition assign_backpointers (transition_matrix : array2 num) (i : nat)
    (T1 : array2 num) (T2 : array2 Z) : result (array2 Z) :=
  prev ← getitem_col T1 (Z.of_nat i - 1);
  X ← mul12 prev (transpose transition_matrix);
  a ← np_argmax_axis1 X;
  setitem_col T2 (Z.of_nat i) (to_uint8 <$> a).

Definition viterbi_init (y : list Z) (transition_matrix emission_matrix : array2 num)
    (initial_state : list num) : result (array2 num * array2 Z) :=
  let K := shape0 transition_matrix in
  let T := length y in
  let T1 := np_zeros2 K T szero in
  let T2 := np_zeros2 K T 0%Z in
  T1 ← assign_initial_scores y emission_matrix initial_state T1;
  T2 ← setitem_col_scalar T2 0 0%Z;
  Ok (T1, T2).

Definition viterbi_step (y : list Z) (transition_matrix emission_matrix : array2 num)
    (i : nat) (tables : array2 num * array2 Z) : result (array2 num * array2 Z) :=
  let '(T1, T2) := tables in
  T1 ← assign_scores y transition_matrix emission_matrix i T1;
  T2 ← assign_backpointers transition_matrix i T1 T2;
  Ok (T1, T2).

Definition viterbi_tables (y : list Z) (transition_matrix emission_matrix : array2 num)
    (initial_state : list num) : result (array2 num * array2 Z) :=
  tables ← viterbi_init y transition_matrix emission_matrix initial_state;
  for_ (range 1 (length y)) tables (viterbi_step y transition_matrix emission_matrix).

(** *** The backward pass *)

(** [path[-1] = np.argmax(T1[:,T-1])] *)
Definition assign_final_state (T : nat) (T1 : array2 num) (path : list Z)
    : result (list Z) :=
  last ← getitem_col T1 (Z.of_nat T - 1);
  a ← np_argmax last;
  setitem path (-1) (to_uint8 a).

(** [path[i-1] = T2[path[i],i]] *)
Definition backtrack_step (T2 : array2 Z) (i : nat) (path : list Z) : result (list Z) :=
  p ← np_getitem path (Z.of_nat i);
  b ← getitem2 T2 p (Z.of_nat i);
  setitem path (Z.of_nat i - 1) b.

(** [max(T1[:,T-1])] *)
Definition best_probability (T : nat) (T1 : array2 num) : result num :=
  last ← getitem_col T1 (Z.of_nat T - 1);
  py_max last.

Definition viterbi_path (T : nat) (T1 : array2 num) (T2 : array2 Z) : result (list Z) :=
  let path := np_zeros1 T 0%Z in
  path ← assign_final_state T T1 path;
  for_ (reverse (range 1 T)) path (backtrack_step T2).

Definition viterbi (y : list Z) (transition_matrix emission_matrix : array2 num)
    (initial_state : list num) : result (list Z * num) :=
  '(T1, T2) ← viterbi_tables y transition_matrix emission_matrix initial_state;
  let T := length y in
  path ← viterbi_path T T1 T2;
  probability ← best_probability T T1;
  Ok (path, probability).
End numeric.

(** ** The call on a store

    The arguments of [viterbi] are references to objects that the caller
    keeps; the tables and the path are objects allocated by the call.  The
    store maps locations to objects; every assignment of the source reads
    its operands from the store and writes the object it assigns to. *)

Module Store.
Definition loc := positive.

Inductive obj `{Scalar} :=
  | Ints (v : list Z)          (* a sequence of Python integers *)
  | Float1 (v : list num)      (* a sequence / one-dimensional array of doubles *)
  | Float2 (M : array2 num)    (* a two-dimensional array of dtype 'd' *)
  | Byte1 (v : list Z)         (* a one-dimensional array of dtype 'B' *)
  | Byte2 (M : array2 Z).      (* a two-dimensional array of dtype 'B' *)

Abbreviation heap := (gmap loc obj).

(** A computation on the store that may raise; the store survives an
    exception. *)
Definition M `{Scalar} (A : Type) : Type := heap → result A * heap.

Definition ret `{Scalar} {A} (a : A) : M A := λ h, (Ok a, h).

Definition bind `{Scalar} {A B} (m : M A) (f : A → M B) : M B := λ h,
  match m h with
  | (Ok a, h') => f a h'
  | (Raise e, h') => (Raise e, h')
  end.

(** A computation that does not touch the store. *)
Definition lift `{Scalar} {A} (r : result A) : M A := λ h, (r, h).

(** [np.zeros]: a new object at a location that is not in use. *)
Definition alloc `{Scalar} (o : obj) : M loc := λ h,
  let l := fresh (dom h) in (Ok l, <[l:=o]> h).

Definition write `{Scalar} (l : loc) (o : obj) : M unit := λ h, (Ok tt, <[l:=o]> h).

Definition read_ints `{Scalar} (l : loc) : M (list Z) := λ h,
  match h !! l with Some (Ints v) => (Ok v, h) | _ => (Raise TypeError, h) end.

Definition read_float1 `{Scalar} (l : loc) : M (list num) := λ h,
  match h !! l with Some (Float1 v) => (Ok v, h) | _ => (Raise TypeError, h) end.

Definition read_float2 `{Scalar} (l : loc) : M (array2 num) := λ h,
  match h !! l with Some (Float2 X) => (Ok X, h) | _ => (Raise TypeError, h) end.

Definition read_byte1 `{Scalar} (l : loc) : M (list Z) := λ h,
  match h !! l with Some (Byte1 v) => (Ok v, h) | _ => (Raise TypeError, h) end.

Definition read_byte2 `{Scalar} (l : loc) : M (array2 Z) := λ h,
  match h !! l with Some (Byte2 X) => (Ok X, h) | _ => (Raise TypeError, h) end.

(** [for x in xs: body(x)] *)
Fixpoint for_each `{Scalar} {X} (xs : list X) (body : X → M unit) : M unit :=
  match xs with
  | [] => ret tt
  | x :: xs' => bind (body x) (λ _, for_each xs' body)
  end.

#[export] Instance store_ret `{Scalar} : MRet M := λ A, @ret _ A.
#[export] Instance store_bind `{Scalar} : MBind M := λ A B f m, bind m f.

Section program.
Context `{Scalar}.

(** [T1[:,0] = initial_state * emission_matrix[:, y[0]]] *)
Definition store_initial_scores (y emission_matrix initial_state T1 : loc) : M unit :=
  pi ← read_float1 initial_state;
  B ← read_float2 emission_matrix;
  ys ← read_ints y;
  X ← read_float2 T1;
  X' ← lift (assign_initial_scores ys B pi X);
  write T1 (Float2 X').

(** [T2[:, 0] = 0] *)
Definition store_initial_backpointers (T2 : loc) : M unit :=
  Y ← read_byte2 T2;
  Y' ← lift (setitem_col_scalar Y 0 0%Z);
  write T2 (Byte2 Y').

(** [T1[:,i] = np.max(T1[:, i - 1] * transition_matrix.T
                      * emission_matrix[np.newaxis, :, y[i]].T, 1)] *)
Definition store_scores (y transition_matrix emission_matrix T1 : loc) (i : nat) : M unit :=
  X ← read_float2 T1;
  A ← read_float2 transition_matrix;
  B ← read_float2 emission_matrix;
  ys ← read_ints y;
  X' ← lift (assign_scores ys A B i X);
  write T1 (Float2 X').

(** [T2[:,i] = np.argmax(T1[:,i-1]*transition_matrix.T, 1)] *)
Definition store_backpointers (transition_matrix T1 T2 : loc) (i : nat) : M unit :=
  X ← read_float2 T1;
  A ← read_float2 transition_matrix;
  Y ← read_byte2 T2;
  Y' ← lift (assign_backpointers A i X Y);
  write T2 (Byte2 Y').

(** [path[-1] = np.argmax(T1[:,T-1])] *)
Definition store_final_state (T1 path : loc) (T : nat) : M unit :=
  X ← read_float2 T1;
  v ← read_byte1 path;
  v' ← lift (assign_final_state T X v);
  write path (Byte1 v').

(** [path[i-1] = T2[path[i],i]] *)
Definition store_backtrack (T2 path : loc) (i : nat) : M unit :=
  v ← read_byte1 path;
  Y ← read_byte2 T2;
  v' ← lift (backtrack_step Y i v);
  write path (Byte1 v').

Definition viterbi (y transition_matrix emission_matrix initial_state : loc)
    : M (loc * num) :=
  (* K = transition_matrix.shape[0]; T = len(y) *)
  A ← read_float2 transition_matrix;
  let K := shape0 A in
  ys ← read_ints y;
  let T := length ys in
  T1 ← alloc (Float2 (np_zeros2 K T szero));
  T2 ← alloc (Byte2 (np_zeros2 K T 0%Z));
  store_initial_scores y emission_matrix initial_state T1;;
  store_initial_backpointers T2;;
  for_each (range 1 T) (λ i,
    store_scores y transition_matrix emission_matrix T1 i;;
    store_backpointers transition_matrix T1 T2 i);;
  path ← alloc (Byte1 (np_zeros1 T 0%Z));
  store_final_state T1 path T;;
  for_each (reverse (range 1 T)) (store_backtrack T2 path);;
  X ← read_float2 T1;
  probability ← lift (best_probability T X);
  ret (path, probability).
End program.

(** What the caller gets: the contents of the returned path and the
    probability, or the exception. *)
Definition outcome `{Scalar} (r : result (loc * num) * heap) : result (list Z * num) :=
  match r with
  | (Ok (l, p), h) =>
      match h !! l with
      | Some (Byte1 path) => Ok (path, p)
      | _ => Raise TypeError
      end
  | (Raise e, _) => Raise e
  end.

(** A call reads its four arguments as these values. *)
Definition holds_arguments `{Scalar} (h : heap)
    (y transition_matrix emission_matrix initial_state : loc)
    (ys : list Z) (A B : array2 num) (pi : list num) : Prop :=
  h !! y = Some (Ints ys) ∧ h !! transition_matrix = Some (Float2 A) ∧
  h !! emission_matrix = Some (Float2 B) ∧ h !! initial_state = Some (Float1 pi).

(** A statement that assigns to the object at [l]: on success the object is
    replaced, on an exception the store is left as it was. *)
Definition assigned `{Scalar} {A} (r : result A) (h : heap) (l : loc) (o : A → obj)
    : result unit * heap :=
  match r with
  | Ok a => (Ok tt, <[l:=o a]> h)
  | Raise e => (Raise e, h)
  end.

(** The store [h] extended with the two tables. *)
Definition with_tables `{Scalar} (h : heap) (l1 l2 : loc) (T1 : array2 num) (T2 : array2 Z)
    : heap :=
  <[l2:=Byte2 T2]> (<[l1:=Float2 T1]> h).

(** What a loop leaves: the unit or the exception of the pure loop. *)
Definition loop_result {A} (r : result A) : result unit :=
  match r with Ok _ => Ok tt | Raise e => Raise e end.

(** A computation that, run on a store that has the locations [D], leaves
    the objects at these locations as they are, whether it returns or
    raises. *)
Definition preserves `{Scalar} (D : gset loc) {A} (m : M A) : Prop :=
  ∀ h, D ⊆ dom h → ∀ l, l ∈ D → (m h).2 !! l = h !! l.

End Store.

(** * The vocabulary of the statements

    Shapes, items, maxima and first maximisers, valid inputs, the
    recurrence, the joint probability of a path and the shapes and symbols
    that the array operations accept. *)

Definition has_shape {A} (M : array2 A) (m n : nat) : Prop :=
  shape0 M = m ∧ shape1 M = n ∧ wf_array2 M.

(** [M[i, j]] for indices known to be in range. *)
Definition at2 `{Inhabited A} (M : array2 A) (i j : nat) : A := (rows M !!! i) !!! j.

(** The position read in an axis of length [m] for position [i] of the
    broadcast result: an axis of length 1 is read at 0 throughout. *)
Definition bidx (m i : nat) : nat := if decide (m = 1) then 0 else i.

(** [v] is the greatest of the candidates [l]. *)
Definition is_max `{Scalar} (l : list num) (v : num) : Prop :=
  v ∈ l ∧ ∀ x, x ∈ l → sle x v.

(** [j] is the lowest index at which the candidates [l] take their greatest
    value: every candidate before [j] is strictly smaller. *)
Definition is_first_argmax `{Scalar} (l : list num) (j : nat) : Prop :=
  ∃ v, l !! j = Some v ∧ (∀ x, x ∈ l → sle x v) ∧
       ∀ i x, i < j → l !! i = Some x → sltb x v = true.

(** The candidates for destination [k] at time [t], one per source state
    [j]: without and with the emission factor of symbol [s]. *)
Definition candidates `{Scalar} (T1 A : array2 num) (K t k : nat) : list num :=
  (λ j, smul (at2 T1 j (t - 1)) (at2 A j k)) <$> seq 0 K.

Definition full_candidates `{Scalar} (T1 A B : array2 num) (K t k s : nat) : list num :=
  (λ j, smul (smul (at2 T1 j (t - 1)) (at2 A j k)) (at2 B k s)) <$> seq 0 K.

(** The inputs the decoder is specified for: [K] hidden states and [N]
    observation symbols, a [K×K] transition matrix, a [K×N] emission matrix,
    an initial distribution of length [K] and a non-empty sequence of symbols
    in [[0, N)].  There is at least one state: an initial distribution sums
    to one. *)
Record valid_input `{Scalar} (y : list Z) (transition_matrix emission_matrix : array2 num)
    (initial_state : list num) (K N : nat) : Prop := {
  valid_states : K ≠ 0;
  valid_transition : has_shape transition_matrix K K;
  valid_emission : has_shape emission_matrix K N;
  valid_initial : length initial_state = K;
  valid_nonempty : y ≠ [];
  valid_symbols : Forall (λ s, (0 ≤ s < Z.of_nat N)%Z) y
}.

(** The column of the emission matrix that the observation at time [t] selects. *)
Definition sym (y : list Z) (t : nat) : nat := Z.to_nat (y !!! t).

(** The recurrence of the two tables, as the specification states it:
    [score[k,0] = initial[k] * emission[k, y[0]]]; for [t] in [1..T-1],
    [score[k,t]] is the maximum over the source states [j] of
    [score[j,t-1] * transition[j,k] * emission[k, y[t]]] and
    [backpointer[k,t]] is the argmax over [j] of
    [score[j,t-1] * transition[j,k]]. *)
Definition recurrence_holds `{Scalar} (y : list Z) (A B : array2 num) (pi : list num)
    (K : nat) : Prop :=
  ∃ (T1 : array2 num) (T2 : array2 Z),
    viterbi_tables y A B pi = Ok (T1, T2) ∧
    (∀ k, k < K → at2 T1 k 0 = smul (pi !!! k) (at2 B k (sym y 0))) ∧
    (∀ t k, 1 ≤ t < length y → k < K →
       is_max (full_candidates T1 A B K t k (sym y t)) (at2 T1 k t) ∧
       ∃ j, at2 T2 k t = Z.of_nat j ∧ is_first_argmax (candidates T1 A K t k) j).

(** The tie-break of the specification: a backpointer is a source state that
    achieves the maximum and no lower-indexed state achieves it; the final
    state [path[T-1]] has the greatest final score and no lower-indexed state
    has it. *)
Definition lowest_index_tie_break `{Scalar} (y : list Z) (A B : array2 num) (pi : list num)
    (K : nat) : Prop :=
  ∃ (T1 : array2 num) (T2 : array2 Z) path probability,
    viterbi_tables y A B pi = Ok (T1, T2) ∧
    viterbi y A B pi = Ok (path, probability) ∧
    (∀ t k, 1 ≤ t < length y → k < K →
       ∃ j v, at2 T2 k t = Z.of_nat j ∧ candidates T1 A K t k !! j = Some v ∧
         (∀ x, x ∈ candidates T1 A K t k → sle x v) ∧
         ∀ j', candidates T1 A K t k !! j' = Some v → j ≤ j') ∧
    (∃ f, path !!! (length y - 1) = Z.of_nat f ∧ f < K ∧
       (∀ k, k < K → sle (at2 T1 k (length y - 1)) (at2 T1 f (length y - 1))) ∧
       ∀ k, k < K → at2 T1 k (length y - 1) = at2 T1 f (length y - 1) → f ≤ k).


(** The state at time [t] of a path of byte values. *)
Definition state (path : list Z) (t : nat) : nat := Z.to_nat (path !!! t).

(** The joint probability of the path and the observations up to time [t],
    recomputed from the inputs:
    [initial[path[0]] * emission[path[0], y[0]]] times, for every later time
    [u], [transition[path[u-1], path[u]] * emission[path[u], y[u]]]. *)
Fixpoint joint_upto `{Scalar} (y : list Z) (A B : array2 num) (pi : list num)
    (path : list Z) (t : nat) : num :=
  match t with
  | 0 => smul (pi !!! state path 0) (at2 B (state path 0) (sym y 0))
  | S t' =>
      smul (joint_upto y A B pi path t')
           (smul (at2 A (state path t') (state path (S t')))
                 (at2 B (state path (S t')) (sym y (S t'))))
  end.

Definition joint_probability `{Scalar} (y : list Z) (A B : array2 num) (pi : list num)
    (path : list Z) : num :=
  joint_upto y A B pi path (length y - 1).

(** The returned probability is the joint probability of the returned path. *)
Definition probability_is_joint `{Scalar} (y : list Z) (A B : array2 num) (pi : list num)
    : Prop :=
  ∃ path probability,
    viterbi y A B pi = Ok (path, probability) ∧
    joint_probability y A B pi path = probability.

(** A length that can be written to an axis of length [K]. *)
Definition fits (n K : nat) : Prop := n = K ∨ n = 1.

(** The lengths that the initialisation accepts: the initial distribution
    (length [L]) and a column of the emission matrix (length [Ke]) broadcast
    to a length that fits a column of the score table. *)
Definition init_accepts (K Ke L : nat) : Prop :=
  ∃ n, broadcast_dim L Ke = Ok n ∧ fits n K.

(** The lengths that an iteration of the recurrence accepts, for a
    transition matrix of shape [(K, C)]. *)
Definition step_accepts (K C Ke : nat) : Prop :=
  ∃ r, broadcast_dim C Ke = Ok r ∧ fits r K ∧ fits C K.


(** A symbol that is a valid Python index into an axis of length [N]. *)
Definition index_valid (N : nat) (s : Z) : Prop :=
  (- Z.of_nat N ≤ s < Z.of_nat N)%Z.


#[export] Instance index_valid_dec N s : Decision (index_valid N s).
Proof. unfold index_valid. apply _. Defined.

#[export] Instance fits_dec n K : Decision (fits n K).
Proof. unfold fits. apply _. Defined.

#[export] Instance init_accepts_dec K Ke L : Decision (init_accepts K Ke L).
Proof.
  unfold init_accepts. destruct (broadcast_dim L Ke) as [n|e] eqn:Hn.
  - destruct (decide (fits n K)) as [Hf|Hf].
    + left. by exists n.
    + right. intros (n' & [= <-] & Hf'). done.
  - right. intros (n' & [=] & _).
Defined.

#[export] Instance step_accepts_dec K C Ke : Decision (step_accepts K C Ke).
Proof.
  unfold step_accepts. destruct (broadcast_dim C Ke) as [r|e] eqn:Hr.
  - destruct (decide (fits r K ∧ fits C K)) as [Hf|Hf].
    + left. by exists r.
    + right. intros (r' & [= <-] & Hf'). done.
  - right. intros (r' & [=] & _).
Defined.

(** The column selected by the symbol at time [t], for symbols that may
    count from the end. *)
Definition sidx (N : nat) (y : list Z) (t : nat) : nat :=
  match py_index N (y !!! t) with Ok s => s | Raise _ => 0 end.

(** The backpointer stored for destination [k] at time [t], and whether the
    candidate of source [j] is strictly smaller than that of source [j']. *)
Definition stored_and_compared `{Scalar} (y : list Z) (A B : array2 num) (pi : list num)
    (K t k j j' : nat) : result (Z * bool) :=
  '(T1, T2) ← viterbi_tables y A B pi;
  Ok (at2 T2 k t, sltb (candidates T1 A K t k !!! j) (candidates T1 A K t k !!! j')).

(** The first maximiser among the candidates for destination [k] at time
    [t], and whether the candidates of sources [j] and [j'] compare strictly
    in either direction. *)
Definition first_and_tie `{Scalar} (y : list Z) (A B : array2 num) (pi : list num)
    (K t k j j' : nat) : result (nat * bool * bool) :=
  '(T1, T2) ← viterbi_tables y A B pi;
  Ok (argmax (candidates T1 A K t k),
      sltb (candidates T1 A K t k !!! j) (candidates T1 A K t k !!! j'),
      sltb (candidates T1 A K t k !!! j') (candidates T1 A K t k !!! j)).

(** Whether the joint probability of the returned path is strictly below the
    returned probability. *)
Definition joint_below_returned `{Scalar} (y : list Z) (A B : array2 num) (pi : list num)
    : result bool :=
  '(path, p) ← viterbi y A B pi;
  Ok (sltb (joint_probability y A B pi path) p).

(** The two argmaxes of the recurrence for destination [k] at time [t]:
    without and with the emission factor. *)
Definition argmax_pair `{Scalar} (y : list Z) (A B : array2 num) (pi : list num)
    (K t k : nat) : result (nat * nat) :=
  '(T1, T2) ← viterbi_tables y A B pi;
  Ok (argmax (candidates T1 A K t k), argmax (full_candidates T1 A B K t k (sym y t))).

(** Multiplying by [b] leaves every strict comparison between two of the
    candidates [l] as it is. *)
Definition scaling_keeps_order `{Scalar} (b : num) (l : list num) : bool :=
  forallb (λ x, forallb (λ x', Bool.eqb (sltb (smul x b) (smul x' b)) (sltb x x')) l) l.

(** The stored backpointer for destination [k] at time [t] and the index of
    the first maximum among the candidates. *)
Definition stored_and_argmax `{Scalar} (y : list Z) (A B : array2 num) (pi : list num)
    (K t k : nat) : result (Z * nat) :=
  '(T1, T2) ← viterbi_tables y A B pi;
  Ok (at2 T2 k t, argmax (candidates T1 A K t k)).

(** Whether multiplying by the emission factor keeps the order of the
    candidates for destination [k] at time [t]. *)
Definition keeps_order_at `{Scalar} (y : list Z) (A B : array2 num) (pi : list num)
    (K t k : nat) : result bool :=
  '(T1, T2) ← viterbi_tables y A B pi;
  Ok (scaling_keeps_order (at2 B k (sym y t)) (candidates T1 A K t k)).

(** The score of the only state of a single-state model at time [t], as the
    recurrence multiplies it: [initial[0] * emission[0, y[0]]], then for
    every later time the score so far times [transition[0, 0]], times
    [emission[0, y[t]]]. *)
Fixpoint single_state_score `{Scalar} (y : list Z) (A B : array2 num) (pi : list num)
    (t : nat) : num :=
  match t with
  | 0 => smul (pi !!! 0) (at2 B 0 (sym y 0))
  | S t' => smul (smul (single_state_score y A B pi t') (at2 A 0 0)) (at2 B 0 (sym y (S t')))
  end.

(** The scores of the initialisation for the symbol [s]: one per state. *)
Definition initial_scores `{Scalar} (pi : list num) (B : array2 num) (K s : nat) : list num :=
  (λ k, smul (pi !!! k) (at2 B k s)) <$> seq 0 K.

(** A symbol as Python reads it as an index into an axis of length [N]: a
    negative one, down to [-N], counts from the end. *)
Definition wrap_symbol (N : nat) (s : Z) : Z :=
  if decide (- Z.of_nat N ≤ s < 0)%Z then (s + Z.of_nat N)%Z else s.

(** * Concrete inputs *)

(** ** The worked example of the notebook *)

Module Example.
Definition y : list Z := [0; 1; 2]%Z.

Definition qc (n : Z) (d : positive) : Qc := Q2Qc (n # d).

Definition transition_matrix_q : array2 (@num rational) :=
  np_array [[qc 7 10; qc 3 10]; [qc 4 10; qc 6 10]].
Definition emission_matrix_q : array2 (@num rational) :=
  np_array [[qc 5 10; qc 4 10; qc 1 10]; [qc 1 10; qc 3 10; qc 6 10]].
Definition initial_state_q : list (@num rational) := [qc 6 10; qc 4 10].

Definition transition_matrix_f : array2 (@num float64) :=
  np_array [[0.7; 0.3]; [0.4; 0.6]]%float.
Definition emission_matrix_f : array2 (@num float64) :=
  np_array [[0.5; 0.4; 0.1]; [0.1; 0.3; 0.6]]%float.
Definition initial_state_f : list (@num float64) := [0.6; 0.4]%float.
End Example.

(** A chain of [n] states that never leaves its state and always emits the
    single symbol 0: identity transition matrix, an [n×1] emission matrix of
    ones. Every row sums to one. *)
Module Chain.
Definition identity {A} (zero one : A) (n : nat) : array2 A :=
  Array2 n ((λ i, (λ j, if decide (i = j) then one else zero) <$> seq 0 n) <$> seq 0 n).

Definition ones {A} (one : A) (n : nat) : array2 A := Array2 1 (replicate n [one]).

Definition y : list Z := [0; 0]%Z.

(** 257 states, started in the last one (state 256). *)
Definition start_last {A} (zero one : A) : list A := replicate 256 zero ++ [one].

(** 258 states, started in state 256 or 257 with equal probability; from
    both, the chain moves to state 257. *)
Definition start_tied {A} (zero half : A) : list A := replicate 256 zero ++ [half; half].

Definition merge_last {A} (zero one : A) : array2 A :=
  Array2 258 ((λ i, (λ j, if decide (j = if decide (i = 256) then 257 else i)
                          then one else zero) <$> seq 0 258) <$> seq 0 258).
End Chain.

(** Two states whose emission matrix has a zero entry: neither state ever
    emits symbol 1. *)
Module ZeroEmission.
Definition y : list Z := [0; 1]%Z.
Definition transition_matrix {A} (zero one : A) : array2 A := np_array [[one; zero]; [zero; one]].
Definition emission_matrix {A} (zero one : A) : array2 A := np_array [[one; zero]; [one; zero]].
Definition initial_state {A} (zero one : A) : list A := [zero; one].
End ZeroEmission.

Module Chain257.
Definition transition_q : array2 (@num rational) := Chain.identity 0%Qc 1%Qc 257.
Definition emission_q : array2 (@num rational) := Chain.ones 1%Qc 257.
Definition initial_q : list (@num rational) := Chain.start_last 0%Qc 1%Qc.
Definition transition_f : array2 (@num float64) := Chain.identity 0%float 1%float 257.
Definition emission_f : array2 (@num float64) := Chain.ones 1%float 257.
Definition initial_f : list (@num float64) := Chain.start_last 0%float 1%float.
End Chain257.

Module Chain258.
Definition transition_q : array2 (@num rational) := Chain.merge_last 0%Qc 1%Qc.
Definition emission_q : array2 (@num rational) := Chain.ones 1%Qc 258.
Definition initial_q : list (@num rational) := Chain.start_tied 0%Qc (Example.qc 1 2).
Definition transition_f : array2 (@num float64) := Chain.merge_last 0%float 1%float.
Definition emission_f : array2 (@num float64) := Chain.ones 1%float 258.
Definition initial_f : list (@num float64) := Chain.start_tied 0%float 0.5%float.
End Chain258.

(** A single state that emits one of two symbols. *)
Module SingleState.
Definition y : list Z := [0; 1; 1; 0; 1]%Z.
Definition transition_matrix : array2 (@num float64) := np_array [[1]]%float.
Definition emission_matrix : array2 (@num float64) := np_array [[0.3; 0.7]]%float.
Definition initial_state : list (@num float64) := [1]%float.
End SingleState.

(** Two states that cannot be told apart: every candidate of the recurrence
    ties with the other one, and every product is exact in binary64. *)
Module Tie.
Definition y : list Z := [0; 1]%Z.
Definition transition_matrix : array2 (@num float64) :=
  np_array [[0.5; 0.5]; [0.5; 0.5]]%float.
Definition emission_matrix : array2 (@num float64) :=
  np_array [[0.5; 0.5]; [0.5; 0.5]]%float.
Definition initial_state : list (@num float64) := [0.5; 0.5]%float.
End Tie.

(** Two states whose candidates for destination 0 at time 1 differ in the
    last place and give the same product with the emission factor 0.65. *)
Module Rounding.
Definition y : list Z := [0; 1]%Z.
Definition transition_matrix : array2 (@num float64) :=
  np_array [[0.65; 0.35]; [0.42; 0.58]]%float.
Definition emission_matrix : array2 (@num float64) :=
  np_array [[0.35; 0.65]; [0.5; 0.5]]%float.
Definition initial_state : list (@num float64) := [0.48; 0.52]%float.
End Rounding.

(** Two stores that hold the arguments of the notebook's example, at
    different locations and next to different other objects. *)
Module ExampleStore.
Definition store_a : gmap Store.loc (@Store.obj rational) :=
  <[1%positive := Store.Ints Example.y]>
    (<[2%positive := Store.Float2 Example.transition_matrix_q]>
       (<[3%positive := Store.Float2 Example.emission_matrix_q]>
          (<[4%positive := Store.Float1 Example.initial_state_q]> ∅))).

Definition store_b : gmap Store.loc (@Store.obj rational) :=
  <[1%positive := Store.Byte1 [7; 7]%Z]>
    (<[10%positive := Store.Float2 Example.transition_matrix_q]>
       (<[11%positive := Store.Float2 Example.emission_matrix_q]>
          (<[12%positive := Store.Ints Example.y]>
             (<[13%positive := Store.Float1 Example.initial_state_q]> ∅)))).
End ExampleStore.

(** * Lemmas and theorems *)

(** ** Shapes and items *)

Lemma py_index_nat n i : i < n → py_index n (Z.of_nat i) = Ok i.
Proof.
  intros Hi. unfold py_index.
  destruct (decide (0 ≤ Z.of_nat i < Z.of_nat n)%Z) as [_|Hn]; [|lia].
  by rewrite Nat2Z.id.
Qed.

Lemma py_index_pred n i : 0 < i → i ≤ n → py_index n (Z.of_nat i - 1) = Ok (i - 1).
Proof.
  intros H0 Hi. replace (Z.of_nat i - 1)%Z with (Z.of_nat (i - 1)) by lia.
  apply py_index_nat. lia.
Qed.

Lemma py_index_last n : 0 < n → py_index n (-1) = Ok (n - 1).
Proof.
  intros Hn. unfold py_index.
  destruct (decide (0 ≤ -1 < Z.of_nat n)%Z); [lia|].
  destruct (decide (- Z.of_nat n ≤ -1 < 0)%Z); [|lia].
  f_equal. lia.
Qed.

Lemma py_index_Ok n i j :
  py_index n i = Ok j →
  j < n ∧ (i = Z.of_nat j ∨ i = (Z.of_nat j - Z.of_nat n)%Z).
Proof.
  unfold py_index. intros Hj.
  destruct (decide (0 ≤ i < Z.of_nat n)%Z).
  - inversion Hj. lia.
  - destruct (decide (- Z.of_nat n ≤ i < 0)%Z); inversion Hj. lia.
Qed.


Lemma py_index_inside n i :
  (- Z.of_nat n ≤ i < Z.of_nat n)%Z → ∃ j, py_index n i = Ok j ∧ j < n.
Proof.
  intros Hi. unfold py_index.
  destruct (decide (0 ≤ i < Z.of_nat n)%Z); [eexists; split; [done|lia]|].
  destruct (decide (- Z.of_nat n ≤ i < 0)%Z); [|lia].
  eexists; split; [done|lia].
Qed.

Lemma np_index_index n i j : py_index n i = Ok j → np_index n i = Ok j.
Proof. unfold np_index. by intros ->. Qed.

Lemma np_index_nat n i : i < n → np_index n (Z.of_nat i) = Ok i.
Proof. intros Hi. by apply np_index_index, py_index_nat. Qed.

Lemma np_index_pred n i : 0 < i → i ≤ n → np_index n (Z.of_nat i - 1) = Ok (i - 1).
Proof. intros H0 Hi. by apply np_index_index, py_index_pred. Qed.

Lemma np_index_last n : 0 < n → np_index n (-1) = Ok (n - 1).
Proof. intros Hn. by apply np_index_index, py_index_last. Qed.


Section arrays.
Context `{Inhabited A}.
Implicit Types (M : array2 A) (v : list A).

Lemma length_column M j : length (column j M) = shape0 M.
Proof. unfold column, shape0. by rewrite length_fmap. Qed.

Lemma lookup_total_column M j k : k < shape0 M → column j M !!! k = at2 M k j.
Proof.
  intros Hk. unfold column, at2.
  rewrite !list_lookup_total_alt, list_lookup_fmap.
  destruct (lookup_lt_is_Some_2 (rows M) k Hk) as [r ->]. simpl.
  apply list_lookup_total_alt.
Qed.

Lemma length_stretch n v : length v = n ∨ length v = 1 → length (stretch n v) = n.
Proof.
  intros Hv. unfold stretch. destruct (decide (length v = n)); [done|].
  by rewrite length_replicate.
Qed.

Lemma np_zeros2_shape K T (z : A) : has_shape (np_zeros2 K T z) K T.
Proof.
  unfold has_shape, shape0, wf_array2; simpl. rewrite length_replicate.
  split_and!; [done..|]. apply Forall_replicate. by rewrite length_replicate.
Qed.

Lemma getitem_col_nat M j : j < shape1 M → getitem_col M (Z.of_nat j) = Ok (column j M).
Proof. intros Hj. unfold getitem_col. by rewrite np_index_nat. Qed.

Lemma getitem_col_index M i j :
  py_index (shape1 M) i = Ok j → getitem_col M i = Ok (column j M).
Proof. intros Hj. unfold getitem_col. by rewrite (np_index_index _ _ _ Hj). Qed.


End arrays.

(** ** Maximum and first maximiser of a list of candidates *)

Section comparisons.
Context {Sc : Scalar}.
Implicit Types (l : list num) (b : num).

(** The comparison loops of the maximum and of its index take the same
    branches: the maximum is the item at the index. *)
Lemma argmax_from_max_from pre best bi l :
  pre !! bi = Some best →
  (pre ++ l) !! argmax_from best bi (length pre) l = Some (max_from best l).
Proof.
  revert pre best bi. induction l as [|a l IH]; intros pre best bi Hbi; simpl.
  - rewrite app_nil_r. done.
  - replace (pre ++ a :: l) with ((pre ++ [a]) ++ l) by (by rewrite <- app_assoc).
    replace (S (length pre)) with (length (pre ++ [a])) by (rewrite length_app; simpl; lia).
    pose proof (lookup_lt_Some _ _ _ Hbi) as Hlt.
    destruct (sltb best a); apply IH.
    + by rewrite list_lookup_middle.
    + by rewrite lookup_app_l.
Qed.

(** The greatest candidate is the one at the first maximiser. *)
Lemma amax_at_argmax l : l ≠ [] → l !! argmax l = Some (amax l).
Proof.
  destruct l as [|a l]; [done|intros _]. simpl.
  apply (argmax_from_max_from [a] a 0 l). done.
Qed.



End comparisons.

(** ** Broadcasting *)

Lemma bidx_lt m i : i < m → bidx m i = i.
Proof. unfold bidx. intros Hi. destruct (decide (m = 1)); lia. Qed.

Lemma broadcast_dim_Ok m n r :
  broadcast_dim m n = Ok r → (m = r ∨ m = 1) ∧ (n = r ∨ n = 1).
Proof.
  unfold broadcast_dim. intros Hr.
  repeat case_decide; inversion Hr; subst; lia.
Qed.


Lemma broadcast_dim_same m : broadcast_dim m m = Ok m.
Proof. unfold broadcast_dim. by rewrite decide_True. Qed.

Lemma broadcast_dim_1_l n : broadcast_dim 1 n = Ok n.
Proof. unfold broadcast_dim. repeat case_decide; congruence. Qed.

Lemma broadcast_dim_1_r m : broadcast_dim m 1 = Ok m.
Proof. unfold broadcast_dim. repeat case_decide; congruence. Qed.

Section arrays_more.
Context `{Inhabited A}.
Implicit Types (M : array2 A) (v : list A).

Lemma lookup_stretch n v i :
  i < n → length v = n ∨ length v = 1 →
  stretch n v !! i = Some (v !!! bidx (length v) i).
Proof.
  intros Hi Hv. unfold stretch, bidx.
  destruct (decide (length v = n)) as [Hn|Hn].
  - destruct (lookup_lt_is_Some_2 v i) as [x Hx]; [lia|].
    rewrite Hx. f_equal. destruct (decide (length v = 1)).
    + replace i with 0 in Hx by lia. by rewrite (list_lookup_total_correct _ _ _ Hx).
    + by rewrite (list_lookup_total_correct _ _ _ Hx).
  - rewrite decide_True by lia. by apply lookup_replicate_2.
Qed.

Lemma at2_lookup M m n i j :
  has_shape M m n → i < m → j < n →
  ∃ r, rows M !! i = Some r ∧ length r = n ∧ r !! j = Some (at2 M i j).
Proof.
  intros (Hm & Hn & Hwf) Hi Hj. unfold shape0 in Hm.
  destruct (lookup_lt_is_Some_2 (rows M) i) as [r Hr]; [lia|].
  pose proof (Forall_lookup_1 _ _ _ _ Hwf Hr) as Hlen. simpl in Hlen.
  destruct (lookup_lt_is_Some_2 r j) as [x Hx]; [lia|].
  exists r. split_and!; [done|lia|]. unfold at2.
  by rewrite (list_lookup_total_correct _ _ _ Hr), (list_lookup_total_correct _ _ _ Hx).
Qed.

Lemma transpose_shape M : has_shape (transpose M) (shape1 M) (shape0 M).
Proof.
  unfold has_shape, shape0, wf_array2, transpose; simpl.
  rewrite length_fmap, length_seq. split_and!; [done..|].
  apply Forall_fmap, Forall_forall. intros j _. simpl. apply length_column.
Qed.

Lemma at2_transpose M c j :
  c < shape1 M → j < shape0 M → at2 (transpose M) c j = at2 M j c.
Proof.
  intros Hc Hj. unfold at2 at 1, transpose; simpl.
  assert (((λ j, column j M) <$> seq 0 (shape1 M)) !! c = Some (column c M)) as Hr.
  { rewrite list_lookup_fmap, lookup_seq_lt by done. done. }
  rewrite (list_lookup_total_correct _ _ _ Hr). by apply lookup_total_column.
Qed.

Lemma newaxis_shape v : has_shape (newaxis v) 1 (length v).
Proof.
  unfold has_shape, wf_array2, newaxis, shape0; simpl.
  split_and!; [done..|]. by apply Forall_singleton.
Qed.

Lemma at2_newaxis v j : at2 (newaxis v) 0 j = v !!! j.
Proof. done. Qed.

(** The general form of a column write: a value of the column's length is
    stored as it is, a value of length 1 is repeated, anything else is
    refused. *)
Lemma setitem_col_spec M j v m n :
  has_shape M m n → j < n → length v = m ∨ length v = 1 →
  ∃ M', setitem_col M (Z.of_nat j) v = Ok M' ∧ has_shape M' m n ∧
        ∀ k t, k < m → t < n →
          at2 M' k t = if decide (t = j) then v !!! bidx (length v) k else at2 M k t.
Proof.
  intros HM Hj Hv. pose proof HM as (Hm & Hn & Hwf). unfold setitem_col.
  rewrite np_index_nat by lia. cbn.
  rewrite decide_True by lia.
  unfold shape0 in Hm.
  eexists. split; [done|]. split.
  - unfold has_shape, shape0, wf_array2; simpl.
    split_and!; [|done|].
    + rewrite length_zip_with_l_eq; [done|].
      unfold shape0. rewrite length_stretch; lia.
    + apply Forall_lookup_2. intros i r Hr.
      apply lookup_zip_with_Some in Hr as (r0 & x & -> & Hr0 & _).
      rewrite length_insert. apply (Forall_lookup_1 _ _ _ _ Hwf Hr0).
  - intros k t Hk Ht.
    destruct (at2_lookup M m n k t HM Hk Ht) as (r & Hr & Hlen & Hrt).
    assert (zip_with (λ r x, <[j:=x]> r) (rows M) (stretch (shape0 M) v) !! k
            = Some (<[j:=v !!! bidx (length v) k]> r)) as Hz.
    { rewrite lookup_zip_with, Hr. simpl.
      unfold shape0. rewrite lookup_stretch by lia. done. }
    unfold at2 at 1; simpl.
    rewrite (list_lookup_total_correct _ _ _ Hz).
    destruct (decide (t = j)) as [->|Hne].
    + rewrite list_lookup_total_insert_eq; [done|lia].
    + rewrite list_lookup_total_insert_ne by done.
      by rewrite (list_lookup_total_correct _ _ _ Hrt).
Qed.


Lemma setitem_col_scalar_spec M j x m n :
  has_shape M m n → j < n →
  ∃ M', setitem_col_scalar M (Z.of_nat j) x = Ok M' ∧ has_shape M' m n ∧
        ∀ k t, k < m → t < n → at2 M' k t = if decide (t = j) then x else at2 M k t.
Proof.
  intros HM Hj. pose proof HM as (Hm & Hn & Hwf). unfold setitem_col_scalar.
  rewrite np_index_nat by lia. cbn.
  eexists. split; [done|]. split.
  - unfold has_shape, shape0, wf_array2; simpl. rewrite length_fmap.
    split_and!; [done..|].
    apply Forall_fmap. eapply Forall_impl; [exact Hwf|].
    intros r Hr. simpl. by rewrite length_insert.
  - intros k t Hk Ht.
    destruct (at2_lookup M m n k t HM Hk Ht) as (r & Hr & Hlen & Hrt).
    assert (((λ r, <[j:=x]> r) <$> rows M) !! k = Some (<[j:=x]> r)) as Hz.
    { by rewrite list_lookup_fmap, Hr. }
    unfold at2 at 1; simpl.
    rewrite (list_lookup_total_correct _ _ _ Hz).
    destruct (decide (t = j)) as [->|Hne].
    + rewrite list_lookup_total_insert_eq; [done|lia].
    + rewrite list_lookup_total_insert_ne by done.
      by rewrite (list_lookup_total_correct _ _ _ Hrt).
Qed.
End arrays_more.

Section products.
Context `{Scalar}.
Implicit Types (u v : list num) (X Y : array2 num).

Lemma mul1_spec u v n :
  broadcast_dim (length u) (length v) = Ok n →
  ∃ w, mul1 u v = Ok w ∧ length w = n ∧
       ∀ i, i < n → w !!! i = smul (u !!! bidx (length u) i) (v !!! bidx (length v) i).
Proof.
  intros Hn. unfold mul1. rewrite Hn. cbn.
  apply broadcast_dim_Ok in Hn as [Hu Hv].
  eexists. split; [done|]. split.
  - rewrite length_zip_with_l_eq; rewrite !length_stretch; auto.
  - intros i Hi. apply list_lookup_total_correct.
    rewrite lookup_zip_with, !lookup_stretch by done. done.
Qed.

Lemma mul2_spec X Y m1 n1 m2 n2 r c :
  has_shape X m1 n1 → has_shape Y m2 n2 →
  broadcast_dim m1 m2 = Ok r → broadcast_dim n1 n2 = Ok c →
  ∃ Z, mul2 X Y = Ok Z ∧ has_shape Z r c ∧
       ∀ i j, i < r → j < c →
         at2 Z i j = smul (at2 X (bidx m1 i) (bidx n1 j)) (at2 Y (bidx m2 i) (bidx n2 j)).
Proof.
  intros HX HY Hr Hc. unfold mul2.
  pose proof HX as (HX0 & HX1 & HXwf). pose proof HY as (HY0 & HY1 & HYwf).
  rewrite HX0, HY0, HX1, HY1, Hr. cbn. rewrite Hc. cbn.
  apply broadcast_dim_Ok in Hr as [Hr1 Hr2].
  apply broadcast_dim_Ok in Hc as [Hc1 Hc2].
  unfold shape0 in HX0, HY0.
  assert (∀ i, i < r →
    zip_with (λ rx ry, zip_with smul (stretch c rx) (stretch c ry))
      (stretch r (rows X)) (stretch r (rows Y)) !! i
    = Some (zip_with smul (stretch c (rows X !!! bidx m1 i))
                          (stretch c (rows Y !!! bidx m2 i)))) as Hrow.
  { intros i Hi. rewrite lookup_zip_with, !lookup_stretch by lia.
    by rewrite HX0, HY0. }
  assert (∀ i, i < r → length (rows X !!! bidx m1 i) = n1) as HlenX.
  { intros i Hi. unfold bidx.
    destruct (lookup_lt_is_Some_2 (rows X) (if decide (m1 = 1) then 0 else i)) as [rx Hrx].
    { case_decide; lia. }
    rewrite (list_lookup_total_correct _ _ _ Hrx).
    rewrite <- HX1. apply (Forall_lookup_1 _ _ _ _ HXwf Hrx). }
  assert (∀ i, i < r → length (rows Y !!! bidx m2 i) = n2) as HlenY.
  { intros i Hi. unfold bidx.
    destruct (lookup_lt_is_Some_2 (rows Y) (if decide (m2 = 1) then 0 else i)) as [ry Hry].
    { case_decide; lia. }
    rewrite (list_lookup_total_correct _ _ _ Hry).
    rewrite <- HY1. apply (Forall_lookup_1 _ _ _ _ HYwf Hry). }
  assert (length (zip_with (λ rx ry, zip_with smul (stretch c rx) (stretch c ry))
                    (stretch r (rows X)) (stretch r (rows Y))) = r) as Hlenz.
  { rewrite length_zip_with_l_eq; rewrite !length_stretch; lia. }
  eexists. split; [done|]. split.
  - unfold has_shape, shape0, wf_array2; simpl. split_and!; [done..|].
    apply Forall_lookup_2. intros i row Hi.
    + assert (i < r) as Hir by (apply lookup_lt_Some in Hi; lia).
      rewrite Hrow in Hi by done. injection Hi as <-.
      rewrite length_zip_with_l_eq; rewrite !length_stretch;
        rewrite ?HlenX, ?HlenY by done; lia.
  - intros i j Hi Hj. unfold at2 at 1; simpl.
    rewrite (list_lookup_total_correct _ _ _ (Hrow i Hi)).
    apply list_lookup_total_correct.
    rewrite lookup_zip_with, !lookup_stretch; rewrite ?HlenX, ?HlenY by done; auto.
Qed.


Lemma np_max_axis1_spec X m n :
  has_shape X m n → n ≠ 0 →
  ∃ w, np_max_axis1 X = Ok w ∧ length w = m ∧
       ∀ i, i < m → w !!! i = amax (rows X !!! i).
Proof.
  intros (Hm & Hn & _) Hn0. unfold np_max_axis1.
  rewrite decide_False by lia. eexists. split; [done|].
  rewrite length_fmap. split; [done|].
  intros i Hi. apply list_lookup_total_correct.
  rewrite list_lookup_fmap.
  destruct (lookup_lt_is_Some_2 (rows X) i) as [rx Hrx]; [unfold shape0 in Hm; lia|].
  by rewrite Hrx, (list_lookup_total_correct _ _ _ Hrx).
Qed.

Lemma np_argmax_axis1_spec X m n :
  has_shape X m n → n ≠ 0 →
  ∃ w, np_argmax_axis1 X = Ok w ∧ length w = m ∧
       ∀ i, i < m → w !!! i = argmax (rows X !!! i).
Proof.
  intros (Hm & Hn & _) Hn0. unfold np_argmax_axis1.
  rewrite decide_False by lia. eexists. split; [done|].
  rewrite length_fmap. split; [done|].
  intros i Hi. apply list_lookup_total_correct.
  rewrite list_lookup_fmap.
  destruct (lookup_lt_is_Some_2 (rows X) i) as [rx Hrx]; [unfold shape0 in Hm; lia|].
  by rewrite Hrx, (list_lookup_total_correct _ _ _ Hrx).
Qed.

(** A row of a well-shaped array is the list of its items. *)
Lemma row_items X m n i :
  has_shape X m n → i < m → rows X !!! i = (λ j, at2 X i j) <$> seq 0 n.
Proof.
  intros HX Hi.
  destruct HX as (Hm & Hn & Hwf). unfold shape0 in Hm.
  destruct (lookup_lt_is_Some_2 (rows X) i) as [rx Hrx]; [lia|].
  pose proof (Forall_lookup_1 _ _ _ _ Hwf Hrx) as Hlen. simpl in Hlen.
  unfold at2. rewrite (list_lookup_total_correct _ _ _ Hrx).
  apply (list_eq_same_length _ _ n).
  - by rewrite length_fmap, length_seq.
  - lia.
  - intros j a b Hj Ha Hb.
    rewrite list_lookup_fmap, lookup_seq_lt in Hb by done. simpl in Hb.
    rewrite (list_lookup_total_correct _ _ _ Ha) in Hb. congruence.
Qed.
End products.

Section step_products.
Context `{Scalar}.
Implicit Types (A B X : array2 num) (prev e : list num).

(** [prev * A.T]: row [c] of the product lists, over the source states
    [j], the score of [j] times the transition from [j] to [c]. *)
Lemma mul12_transpose_spec prev A K C :
  has_shape A K C → length prev = K →
  ∃ X, mul12 prev (transpose A) = Ok X ∧ has_shape X C K ∧
       ∀ c j, c < C → j < K → at2 X c j = smul (prev !!! j) (at2 A j c).
Proof.
  intros HA Hprev. pose proof HA as (HA0 & HA1 & _). unfold mul12.
  pose proof (newaxis_shape prev) as Hnew. rewrite Hprev in Hnew.
  pose proof (transpose_shape A) as Htr. rewrite HA0, HA1 in Htr.
  destruct (mul2_spec _ _ _ _ _ _ C K Hnew Htr (broadcast_dim_1_l C) (broadcast_dim_same K))
    as (X & HX & HXshape & HXat).
  exists X. split_and!; [done..|].
  intros c j Hc Hj. rewrite HXat by done.
  rewrite !(bidx_lt K j), (bidx_lt C c) by done.
  replace (bidx 1 c) with 0 by (unfold bidx; by rewrite decide_True).
  rewrite at2_newaxis, at2_transpose by lia. done.
Qed.

(** [X * e[np.newaxis, :].T]: row [i] of [X] is scaled by item [i] of [e]. *)
Lemma mul2_column_vector_spec X e C K Ke r :
  has_shape X C K → length e = Ke → broadcast_dim C Ke = Ok r →
  ∃ P, mul2 X (transpose (newaxis e)) = Ok P ∧ has_shape P r K ∧
       ∀ i j, i < r → j < K →
         at2 P i j = smul (at2 X (bidx C i) j) (e !!! bidx Ke i).
Proof.
  intros HX He Hr.
  pose proof (transpose_shape (newaxis e)) as Htr. simpl in Htr.
  replace (shape0 (newaxis e)) with 1 in Htr by done. rewrite He in Htr.
  destruct (mul2_spec _ _ _ _ _ _ r K HX Htr Hr (broadcast_dim_1_r K))
    as (P & HP & HPshape & HPat).
  exists P. split_and!; [done..|].
  intros i j Hi Hj. rewrite HPat by done.
  rewrite (bidx_lt K j) by done.
  replace (bidx 1 j) with 0 by (unfold bidx; by rewrite decide_True).
  rewrite at2_transpose; [done| |by (unfold shape0; simpl; lia)].
  simpl. rewrite He. apply broadcast_dim_Ok in Hr as [_ Hr].
  unfold bidx. case_decide; lia.
Qed.

End step_products.

Lemma argmax_from_lt `{Scalar} (best : num) bi i l :
  bi < i → argmax_from best bi i l < i + length l.
Proof.
  revert best bi i. induction l as [|x l IH]; intros best bi i Hbi; simpl; [lia|].
  destruct (sltb best x).
  - specialize (IH x i (S i)). lia.
  - specialize (IH best bi (S i)). lia.
Qed.

Lemma argmax_bound `{Scalar} (l : list num) : l ≠ [] → argmax l < length l.
Proof.
  destruct l as [|x l]; [done|intros _]. simpl.
  pose proof (argmax_from_lt x 0 1 l). lia.
Qed.

Lemma to_uint8_range n : (0 ≤ to_uint8 n < 256)%Z.
Proof. unfold to_uint8. apply Z.mod_pos_bound. lia. Qed.

Lemma to_uint8_le n : (to_uint8 n ≤ Z.of_nat n)%Z.
Proof. unfold to_uint8. apply Z.mod_le; lia. Qed.

Lemma at2_np_zeros2 `{Inhabited A} K T (z : A) k t :
  k < K → t < T → at2 (np_zeros2 K T z) k t = z.
Proof.
  intros Hk Ht. unfold at2, np_zeros2; simpl.
  rewrite (list_lookup_total_correct _ _ _ (lookup_replicate_2 K _ k Hk)).
  by rewrite (list_lookup_total_correct _ _ _ (lookup_replicate_2 T _ t Ht)).
Qed.

Lemma lookup_total_fmap_lt {A B} `{Inhabited A, Inhabited B} (f : A → B) (l : list A) i :
  i < length l → (f <$> l) !!! i = f (l !!! i).
Proof.
  intros Hi. destruct (lookup_lt_is_Some_2 l i Hi) as [x Hx].
  apply list_lookup_total_correct.
  by rewrite list_lookup_fmap, Hx, (list_lookup_total_correct _ _ _ Hx).
Qed.

(** ** The recurrence *)

Section recurrence.
Context `{Scalar}.
Implicit Types (A B : array2 num) (y : list Z).

Lemma full_candidates_alt (T1 : array2 num) A B K t k s :
  full_candidates T1 A B K t k s = (λ x, smul x (at2 B k s)) <$> candidates T1 A K t k.
Proof. unfold full_candidates, candidates. by rewrite <- list_fmap_compose. Qed.

Lemma getitem_nat `{Inhabited X} (v : list X) i : i < length v → getitem v (Z.of_nat i) = Ok (v !!! i).
Proof. intros Hi. unfold getitem. by rewrite py_index_nat. Qed.

Lemma viterbi_step_spec y A B K C Ke N T i (T1 : array2 num) (T2 : array2 Z) s r :
  has_shape A K C → has_shape B Ke N → has_shape T1 K T → has_shape T2 K T →
  length y = T → 1 ≤ i < T → py_index N (y !!! i) = Ok s →
  K ≠ 0 → broadcast_dim C Ke = Ok r → r = K ∨ r = 1 → C = K ∨ C = 1 →
  ∃ T1' T2', viterbi_step y A B i (T1, T2) = Ok (T1', T2') ∧
    has_shape T1' K T ∧ has_shape T2' K T ∧
    (∀ k t, k < K → t < T → t ≠ i →
       at2 T1' k t = at2 T1 k t ∧ at2 T2' k t = at2 T2 k t) ∧
    (∀ k, k < K → (0 ≤ at2 T2' k i < Z.of_nat K)%Z) ∧
    (C = K → Ke = K → ∀ k, k < K →
       at2 T1' k i = amax (full_candidates T1 A B K i k s) ∧
       at2 T2' k i = to_uint8 (argmax (candidates T1 A K i k))).
Proof.
  intros HA HB HT1 HT2 Hy Hi Hs HK Hr HrK HC.
  pose proof HT1 as (HT10 & HT11 & _). pose proof HB as (HB0 & HB1 & _).
  unfold viterbi_step, assign_scores, assign_backpointers.
  replace (Z.of_nat i - 1)%Z with (Z.of_nat (i - 1)) by lia.
  rewrite getitem_col_nat by lia. cbn.
  destruct (mul12_transpose_spec (column (i - 1) T1) A K C HA) as (X & -> & HX & HXat).
  { by rewrite length_column. }
  cbn. rewrite getitem_nat by lia. cbn.
  rewrite (getitem_col_index B _ s) by (by rewrite HB1). cbn.
  destruct (mul2_column_vector_spec X (column s B) C K Ke r HX) as (P & -> & HP & HPat);
    [by rewrite length_column|done|].
  cbn.
  destruct (np_max_axis1_spec P r K HP HK) as (m & -> & Hm & Hmat). cbn.
  destruct (setitem_col_spec T1 i m K T HT1) as (T1' & -> & HT1' & HT1'at); [lia|lia|].
  cbn. pose proof HT1' as (HT1'0 & HT1'1 & _).
  rewrite getitem_col_nat by lia. cbn.
  destruct (mul12_transpose_spec (column (i - 1) T1') A K C HA) as (X' & -> & HX' & HX'at).
  { by rewrite length_column. }
  cbn.
  destruct (np_argmax_axis1_spec X' C K HX' HK) as (a & -> & Ha & Haat). cbn.
  destruct (setitem_col_spec T2 i (to_uint8 <$> a) K T HT2) as (T2' & -> & HT2' & HT2'at);
    [lia|rewrite length_fmap; lia|].
  cbn. exists T1', T2'. split_and!; [done..| | |].
  - intros k t Hk Ht Hne. rewrite HT1'at, HT2'at by done.
    by rewrite !decide_False by done.
  - intros k Hk. rewrite HT2'at by lia. rewrite decide_True by done.
    rewrite length_fmap, Ha.
    assert (bidx C k < C) as Hb by (unfold bidx; case_decide; lia).
    rewrite lookup_total_fmap_lt by lia. rewrite Haat by done.
    pose proof (to_uint8_range (argmax (rows X' !!! bidx C k))).
    pose proof (to_uint8_le (argmax (rows X' !!! bidx C k))).
    pose proof (argmax_bound (rows X' !!! bidx C k)) as Hlt.
    rewrite (row_items X' C K) in * by done.
    rewrite length_fmap, length_seq in Hlt.
    destruct K; [done|]. specialize (Hlt ltac:(done)). lia.
  - intros HCK HKe k Hk.
    assert (r = K) as Hr' by (rewrite HCK, HKe, broadcast_dim_same in Hr; congruence).
    rewrite Hr' in *. rewrite HCK in *. rewrite HKe in *.
    rewrite HT1'at, HT2'at by lia. rewrite !decide_True by done.
    rewrite length_fmap, Hm, Ha, !bidx_lt by done. split.
    + rewrite Hmat by done. f_equal.
      rewrite (row_items P K K) by done. unfold full_candidates.
      apply list_fmap_ext. intros j' j [-> Hj]%lookup_seq; simpl.
      rewrite HPat, HXat; rewrite ?bidx_lt by done; try done.
      by rewrite !lookup_total_column by lia.
    + rewrite lookup_total_fmap_lt by lia. f_equal. rewrite Haat by done. f_equal.
      rewrite (row_items X' K K) by done. unfold candidates.
      apply list_fmap_ext. intros j' j [-> Hj]%lookup_seq; simpl.
      rewrite HX'at by done. rewrite lookup_total_column by lia.
      rewrite HT1'at by lia. rewrite decide_False by lia. done.
Qed.
End recurrence.

Section forward.
Context `{Scalar}.
Implicit Types (A B : array2 num) (y : list Z) (pi : list num).

Lemma viterbi_init_spec y A B pi K C Ke N L s n :
  has_shape A K C → has_shape B Ke N → length pi = L → y ≠ [] →
  py_index N (y !!! 0) = Ok s →
  broadcast_dim L Ke = Ok n → n = K ∨ n = 1 →
  ∃ (T1 : array2 num) (T2 : array2 Z),
    viterbi_init y A B pi = Ok (T1, T2) ∧
    has_shape T1 K (length y) ∧ has_shape T2 K (length y) ∧
    (∀ k t, k < K → t < length y → at2 T2 k t = 0%Z) ∧
    (L = K → Ke = K → ∀ k, k < K → at2 T1 k 0 = smul (pi !!! k) (at2 B k s)).
Proof.
  intros HA HB Hpi Hy Hs Hn HnK.
  pose proof HA as (HA0 & _). pose proof HB as (HB0 & HB1 & _).
  assert (0 < length y) as HT by (destruct y; [done|simpl; lia]).
  unfold viterbi_init, assign_initial_scores.
  change (getitem y 0) with (getitem y (Z.of_nat 0)).
  rewrite getitem_nat by done. cbn.
  rewrite (getitem_col_index B _ s) by (by rewrite HB1). cbn.
  destruct (mul1_spec pi (column s B) n) as (w & -> & Hw & Hwat).
  { by rewrite Hpi, length_column, HB0. }
  cbn. rewrite HA0.
  destruct (setitem_col_spec (np_zeros2 K (length y) szero) 0 w K (length y))
    as (T1 & HT1eq & HT1 & HT1at); [apply np_zeros2_shape|lia|lia|].
  change (Z.of_nat 0) with 0%Z in HT1eq. rewrite HT1eq. cbn.
  destruct (setitem_col_scalar_spec (np_zeros2 K (length y) 0%Z) 0 0%Z K (length y))
    as (T2 & HT2eq & HT2 & HT2at); [apply np_zeros2_shape|lia|].
  change (Z.of_nat 0) with 0%Z in HT2eq. rewrite HT2eq.
  cbn. exists T1, T2. split_and!; [done..| |].
  { intros k t Hk Ht. rewrite HT2at by done.
    case_decide; [done|]. by apply at2_np_zeros2. }
  intros HLK HKe k Hk.
  assert (n = K) as Hn' by (rewrite HLK, HKe, broadcast_dim_same in Hn; congruence).
  rewrite HT1at by lia. rewrite decide_True by done.
  rewrite Hw, Hn', bidx_lt by done. rewrite Hwat by lia.
  rewrite Hpi, length_column, HB0, HLK, HKe, !bidx_lt by done.
  by rewrite lookup_total_column by lia.
Qed.

Lemma candidates_ext (T1 T1' : array2 num) A K t k :
  (∀ j, j < K → at2 T1 j (t - 1) = at2 T1' j (t - 1)) →
  candidates T1 A K t k = candidates T1' A K t k.
Proof.
  intros Heq. unfold candidates. apply list_fmap_ext.
  intros i j [-> Hj]%lookup_seq; simpl. by rewrite Heq.
Qed.

Lemma full_candidates_ext (T1 T1' : array2 num) A B K t k s :
  (∀ j, j < K → at2 T1 j (t - 1) = at2 T1' j (t - 1)) →
  full_candidates T1 A B K t k s = full_candidates T1' A B K t k s.
Proof.
  intros Heq. rewrite !full_candidates_alt. f_equal. by apply candidates_ext.
Qed.

(** The loop over [seq a n], started on well-shaped tables: it keeps the
    shapes and every column before [a]; with square transition and
    matching emission, each column it writes satisfies the recurrence in
    the final tables. *)
Lemma viterbi_loop_spec y A B K C Ke N T (sidx : nat → nat) r :
  has_shape A K C → has_shape B Ke N → length y = T →
  K ≠ 0 → broadcast_dim C Ke = Ok r → r = K ∨ r = 1 → C = K ∨ C = 1 →
  ∀ n a (T1 : array2 num) (T2 : array2 Z),
    1 ≤ a → a + n ≤ T → has_shape T1 K T → has_shape T2 K T →
    (∀ t, a ≤ t < a + n → py_index N (y !!! t) = Ok (sidx t)) →
    (∀ k t, k < K → t < T → (0 ≤ at2 T2 k t < Z.of_nat K)%Z) →
    ∃ T1f T2f, for_ (seq a n) (T1, T2) (viterbi_step y A B) = Ok (T1f, T2f) ∧
      has_shape T1f K T ∧ has_shape T2f K T ∧
      (∀ k t, k < K → t < a → at2 T1f k t = at2 T1 k t ∧ at2 T2f k t = at2 T2 k t) ∧
      (∀ k t, k < K → t < T → (0 ≤ at2 T2f k t < Z.of_nat K)%Z) ∧
      (C = K → Ke = K → ∀ k t, k < K → a ≤ t < a + n →
         at2 T1f k t = amax (full_candidates T1f A B K t k (sidx t)) ∧
         at2 T2f k t = to_uint8 (argmax (candidates T1f A K t k))).
Proof.
  intros HA HB Hy HK Hr HrK HC.
  induction n as [|n IH]; intros a T1 T2 Ha Han HT1 HT2 Hsym Hrange.
  - exists T1, T2. split_and!; [done..| | |]; intros; [done|auto|lia].
  - change (seq a (S n)) with (a :: seq (S a) n). cbn [for_].
    destruct (viterbi_step_spec y A B K C Ke N T a T1 T2 (sidx a) r)
      as (T1' & T2' & -> & HT1' & HT2' & Hkeep & Hrange' & Hnew);
      try done; [lia|apply Hsym; lia|].
    cbn.
    destruct (IH (S a) T1' T2') as (T1f & T2f & -> & HT1f & HT2f & Hkeepf & Hrangef & Hnewf);
      [lia|lia|done|done|intros; apply Hsym; lia| |].
    { intros k t Hk Ht. destruct (decide (t = a)) as [->|Hne]; [by apply Hrange'|].
      destruct (Hkeep k t) as [_ ->]; auto. }
    exists T1f, T2f. split_and!; [done|done|done| |done|].
    + intros k t Hk Ht.
      destruct (Hkeepf k t) as [-> ->]; [done|lia|]. apply Hkeep; [done|lia|lia].
    + intros HCK HKe k t Hk Ht.
      destruct (decide (t = a)) as [->|Hne]; [|apply Hnewf; [done..|lia]].
      destruct (Hkeepf k a) as [-> ->]; [done|lia|].
      destruct (Hnew HCK HKe k Hk) as [-> ->].
      assert (∀ j, j < K → at2 T1 j (a - 1) = at2 T1f j (a - 1)) as Heq.
      { intros j Hj. destruct (Hkeepf j (a - 1)) as [-> _]; [done|lia|].
        destruct (Hkeep j (a - 1)) as [-> _]; [done|lia|lia|done]. }
      by rewrite (full_candidates_ext T1 T1f), (candidates_ext T1 T1f).
Qed.
End forward.

(** ** The backward pass *)

Lemma py_index_nonneg n i : (0 ≤ i < Z.of_nat n)%Z → py_index n i = Ok (Z.to_nat i).
Proof. intros Hi. unfold py_index. by rewrite decide_True. Qed.

Lemma reverse_seq_S a n : reverse (seq a (S n)) = (a + n) :: reverse (seq a n).
Proof. by rewrite seq_S, reverse_app. Qed.

Section backward.
Context `{Scalar}.

Lemma backtrack_loop_spec (T2 : array2 Z) K T :
  has_shape T2 K T →
  (∀ k t, k < K → t < T → (0 ≤ at2 T2 k t < Z.of_nat K)%Z) →
  ∀ n (path : list Z), n < T → length path = T →
    (∀ t, n ≤ t < T → (0 ≤ path !!! t < Z.of_nat K)%Z) →
    ∃ path', for_ (reverse (seq 1 n)) path (backtrack_step T2) = Ok path' ∧
      length path' = T ∧
      (∀ t, n ≤ t < T → path' !!! t = path !!! t) ∧
      (∀ t, t < T → (0 ≤ path' !!! t < Z.of_nat K)%Z) ∧
      (∀ t, 1 ≤ t ≤ n → path' !!! (t - 1) = at2 T2 (Z.to_nat (path' !!! t)) t).
Proof.
  intros HT2 Hrange. pose proof HT2 as (HT20 & HT21 & _).
  induction n as [|n IH]; intros path Hn Hlen Hpath.
  - exists path. split_and!; [done..| |]; intros; [apply Hpath|]; lia.
  - rewrite reverse_seq_S. cbn [for_]. replace (1 + n) with (S n) by lia.
    unfold backtrack_step at 2.
    unfold np_getitem. rewrite np_index_nat by lia. cbn.
    unfold getitem2. rewrite HT20, HT21.
    assert (0 ≤ path !!! S n < Z.of_nat K)%Z as Hp by (apply Hpath; lia).
    rewrite (np_index_index K (path !!! S n) _ (py_index_nonneg _ _ Hp)).
    cbn. rewrite np_index_nat by lia. cbn.
    unfold setitem. rewrite np_index_pred by lia. cbn.
    rewrite Nat.sub_0_r.
    fold (at2 T2 (Z.to_nat (path !!! S n)) (S n)).
    set (b := at2 T2 (Z.to_nat (path !!! S n)) (S n)).
    assert (0 ≤ b < Z.of_nat K)%Z as Hb.
    { apply Hrange; [|lia]. specialize (Hpath (S n)). lia. }
    destruct (IH (<[n:=b]> path)) as (path' & -> & Hlen' & Hsame & Hrange' & Hback).
    + lia.
    + by rewrite length_insert.
    + intros t Ht. destruct (decide (t = n)) as [->|Hne].
      * rewrite list_lookup_total_insert_eq by lia. done.
      * rewrite list_lookup_total_insert_ne by done. apply Hpath. lia.
    + exists path'. split_and!; [done..| | |].
      * intros t Ht. rewrite Hsame by lia. rewrite list_lookup_total_insert_ne by lia. done.
      * done.
      * intros t Ht. destruct (decide (t = S n)) as [->|Hne]; [|apply Hback; lia].
        replace (S n - 1) with n by lia.
        rewrite !Hsame by lia.
        rewrite list_lookup_total_insert_eq by lia.
        rewrite list_lookup_total_insert_ne by lia. done.
Qed.

Lemma viterbi_path_spec (T1 : array2 num) (T2 : array2 Z) K T :
  has_shape T1 K T → has_shape T2 K T → 0 < T → K ≠ 0 →
  (∀ k t, k < K → t < T → (0 ≤ at2 T2 k t < Z.of_nat K)%Z) →
  ∃ path, viterbi_path T T1 T2 = Ok path ∧
    length path = T ∧
    (∀ t, t < T → (0 ≤ path !!! t < Z.of_nat K)%Z) ∧
    path !!! (T - 1) = to_uint8 (argmax (column (T - 1) T1)) ∧
    (∀ t, 1 ≤ t < T → path !!! (t - 1) = at2 T2 (Z.to_nat (path !!! t)) t).
Proof.
  intros HT1 HT2 HT HK Hrange. pose proof HT1 as (HT10 & HT11 & _).
  unfold viterbi_path, assign_final_state.
  replace (Z.of_nat T - 1)%Z with (Z.of_nat (T - 1)) by lia.
  rewrite getitem_col_nat by lia. cbn.
  set (last := column (T - 1) T1).
  assert (length last = K) as Hlast by (unfold last; by rewrite length_column).
  unfold np_argmax. destruct last as [|x last'] eqn:Hl; [simpl in Hlast; lia|].
  rewrite <- Hl in *. cbn.
  unfold setitem, np_zeros1. rewrite length_replicate, np_index_last by done. cbn.
  unfold range.
  assert (0 ≤ to_uint8 (argmax last) < Z.of_nat K)%Z as Hfinal.
  { pose proof (to_uint8_range (argmax last)). pose proof (to_uint8_le (argmax last)).
    pose proof (argmax_bound last) as Hlt. rewrite Hl in Hlt at 1.
    specialize (Hlt ltac:(done)). lia. }
  destruct (backtrack_loop_spec T2 K T HT2 Hrange (T - 1)
              (<[T - 1:=to_uint8 (argmax last)]> (replicate T 0%Z)))
    as (path & -> & Hlen & Hsame & Hrange' & Hback).
  - lia.
  - by rewrite length_insert, length_replicate.
  - intros t Ht. replace t with (T - 1) by lia.
    rewrite list_lookup_total_insert_eq by (rewrite length_replicate; lia). done.
  - exists path. split_and!; [done..| |].
    + rewrite Hsame by lia.
      rewrite list_lookup_total_insert_eq by (rewrite length_replicate; lia). done.
    + intros t Ht. apply Hback. lia.
Qed.
End backward.

(** ** The decoder as a whole *)

Section decoder.
Context `{Scalar}.
Implicit Types (A B : array2 num) (y : list Z) (pi : list num).

(** The decoder on shapes that broadcasting accepts, with symbols that are
    valid Python indices ([sidx t] is the column that symbol [y[t]]
    selects).  The equations of the tables are stated for the shapes of the
    docstring: [K×K] transition, [K×N] emission, initial of length [K]. *)
Lemma viterbi_tables_spec y A B pi K C Ke N L (sidx : nat → nat) n :
  has_shape A K C → has_shape B Ke N → length pi = L → y ≠ [] → K ≠ 0 →
  (∀ t, t < length y → py_index N (y !!! t) = Ok (sidx t)) →
  broadcast_dim L Ke = Ok n → n = K ∨ n = 1 →
  (1 < length y → ∃ r, broadcast_dim C Ke = Ok r ∧ (r = K ∨ r = 1) ∧ (C = K ∨ C = 1)) →
  ∃ (T1 : array2 num) (T2 : array2 Z),
    viterbi_tables y A B pi = Ok (T1, T2) ∧
    has_shape T1 K (length y) ∧ has_shape T2 K (length y) ∧
    (∀ k t, k < K → t < length y → (0 ≤ at2 T2 k t < Z.of_nat K)%Z) ∧
    (L = K → Ke = K → ∀ k, k < K → at2 T1 k 0 = smul (pi !!! k) (at2 B k (sidx 0))) ∧
    (C = K → Ke = K → ∀ k t, k < K → 1 ≤ t < length y →
       at2 T1 k t = amax (full_candidates T1 A B K t k (sidx t)) ∧
       at2 T2 k t = to_uint8 (argmax (candidates T1 A K t k))).
Proof.
  intros HA HB Hpi Hy HK Hsym Hn HnK Hloop.
  assert (0 < length y) as HT by (destruct y; [done|simpl; lia]).
  unfold viterbi_tables.
  destruct (viterbi_init_spec y A B pi K C Ke N L (sidx 0) n)
    as (T1 & T2 & -> & HT1 & HT2 & Hzero & Hinit); try done; [by apply Hsym|].
  cbn. unfold range.
  assert (∀ k t, k < K → t < length y → (0 ≤ at2 T2 k t < Z.of_nat K)%Z) as Hrange.
  { intros k t Hk Ht. rewrite Hzero by done. lia. }
  destruct (decide (length y = 1)) as [H1|H1].
  - rewrite H1. simpl. exists T1, T2. rewrite H1 in *.
    split_and!; [done..|]. intros; lia.
  - destruct Hloop as (r & Hr & HrK & HC); [lia|].
    destruct (viterbi_loop_spec y A B K C Ke N (length y) sidx r HA HB eq_refl HK Hr HrK HC
                (length y - 1) 1 T1 T2)
      as (T1f & T2f & -> & HT1f & HT2f & Hkeep & Hrangef & Hnew);
      [lia|lia|done|done|intros; apply Hsym; lia|done|].
    exists T1f, T2f. split_and!; [done..| |].
    + intros HLK HKe k Hk. destruct (Hkeep k 0) as [-> _]; [done|lia|]. by apply Hinit.
    + intros HCK HKe k t Hk Ht. apply Hnew; [done..|lia].
Qed.

Lemma viterbi_spec y A B pi K C Ke N L (sidx : nat → nat) n :
  has_shape A K C → has_shape B Ke N → length pi = L → y ≠ [] → K ≠ 0 →
  (∀ t, t < length y → py_index N (y !!! t) = Ok (sidx t)) →
  broadcast_dim L Ke = Ok n → n = K ∨ n = 1 →
  (1 < length y → ∃ r, broadcast_dim C Ke = Ok r ∧ (r = K ∨ r = 1) ∧ (C = K ∨ C = 1)) →
  ∃ (T1 : array2 num) (T2 : array2 Z) (path : list Z),
    viterbi_tables y A B pi = Ok (T1, T2) ∧
    viterbi y A B pi = Ok (path, amax (column (length y - 1) T1)) ∧
    length path = length y ∧
    (∀ t, t < length y → (0 ≤ path !!! t < Z.of_nat K)%Z) ∧
    path !!! (length y - 1) = to_uint8 (argmax (column (length y - 1) T1)) ∧
    (∀ t, 1 ≤ t < length y → path !!! (t - 1) = at2 T2 (Z.to_nat (path !!! t)) t).
Proof.
  intros HA HB Hpi Hy HK Hsym Hn HnK Hloop.
  assert (0 < length y) as HT by (destruct y; [done|simpl; lia]).
  destruct (viterbi_tables_spec y A B pi K C Ke N L sidx n)
    as (T1 & T2 & Htab & HT1 & HT2 & Hrange & _); try done.
  destruct (viterbi_path_spec T1 T2 K (length y))
    as (path & Hpath & Hlen & Hprange & Hlast & Hback); try done.
  exists T1, T2, path. split_and!; try done.
  unfold viterbi, best_probability. rewrite Htab. cbn. rewrite Hpath. cbn.
  pose proof HT1 as (HT10 & HT11 & _).
  replace (Z.of_nat (length y) - 1)%Z with (Z.of_nat (length y - 1)) by lia.
  rewrite getitem_col_nat by lia. cbn.
  assert (length (column (length y - 1) T1) = K) as Hlc by (by rewrite length_column).
  unfold py_max. destruct (column (length y - 1) T1); [simpl in Hlc; lia|]. done.
Qed.
End decoder.

(** ** Valid inputs *)

Lemma valid_symbols_index y N t :
  Forall (λ s, (0 ≤ s < Z.of_nat N)%Z) y → t < length y →
  py_index N (y !!! t) = Ok (sym y t).
Proof.
  intros Hy Ht. apply py_index_nonneg.
  destruct (lookup_lt_is_Some_2 y t Ht) as [s Hs].
  rewrite (list_lookup_total_correct _ _ _ Hs).
  apply (Forall_lookup_1 _ _ _ _ Hy Hs).
Qed.

Lemma Qc_ltb_irrefl (x : Qc) : Qc_ltb x x = false.
Proof.
  unfold Qc_ltb. apply negb_false_iff. apply Qle_bool_iff. apply Qle_refl.
Qed.

(** ** Properties of the decoder *)

Ltac solve_shape :=
  repeat split; try reflexivity; try discriminate; repeat constructor.

Section claims.
Context {Sc : Scalar}.
Implicit Types (A B : array2 num) (y : list Z) (pi : list num).

Lemma valid_input_spec y A B pi K N :
  valid_input y A B pi K N →
  ∃ (T1 : array2 num) (T2 : array2 Z) (path : list Z),
    viterbi_tables y A B pi = Ok (T1, T2) ∧
    viterbi y A B pi = Ok (path, amax (column (length y - 1) T1)) ∧
    (has_shape T1 K (length y) ∧ has_shape T2 K (length y)) ∧
    (∀ k, k < K → at2 T1 k 0 = smul (pi !!! k) (at2 B k (sym y 0))) ∧
    (∀ k t, k < K → 1 ≤ t < length y →
       at2 T1 k t = amax (full_candidates T1 A B K t k (sym y t)) ∧
       at2 T2 k t = to_uint8 (argmax (candidates T1 A K t k))) ∧
    length path = length y ∧
    (∀ t, t < length y → (0 ≤ path !!! t < Z.of_nat K)%Z) ∧
    path !!! (length y - 1) = to_uint8 (argmax (column (length y - 1) T1)) ∧
    (∀ t, 1 ≤ t < length y → path !!! (t - 1) = at2 T2 (Z.to_nat (path !!! t)) t).
Proof.
  intros [HK HA HB Hpi Hy Hsym].
  assert (∀ t, t < length y → py_index N (y !!! t) = Ok (sym y t)) as Hidx.
  { intros t Ht. by apply valid_symbols_index. }
  assert (1 < length y →
          ∃ r, broadcast_dim K K = Ok r ∧ (r = K ∨ r = 1) ∧ (K = K ∨ K = 1)) as Hloop.
  { intros _. exists K. rewrite broadcast_dim_same. auto. }
  destruct (viterbi_tables_spec y A B pi K K K N K (sym y) K)
    as (T1 & T2 & Htab & HT1 & HT2 & Hrange & Hinit & Hrec);
    try done; [apply broadcast_dim_same|by left|].
  destruct (viterbi_spec y A B pi K K K N K (sym y) K)
    as (T1' & T2' & path & Htab' & Hvit & Hlen & Hprange & Hlast & Hback);
    try done; [apply broadcast_dim_same|by left|].
  rewrite Htab in Htab'. injection Htab' as <- <-.
  exists T1, T2, path. split_and!; auto.
Qed.
End claims.

Lemma candidates_length `{Scalar} (T1 A : array2 num) K t k :
  length (candidates T1 A K t k) = K.
Proof. unfold candidates. by rewrite length_fmap, length_seq. Qed.

Lemma nonempty_length {X} (l : list X) : length l ≠ 0 → l ≠ [].
Proof. by destruct l. Qed.

(** Discharges [valid_input] and the like on concrete inputs. *)
Ltac solve_valid :=
  split; [discriminate | solve_shape | solve_shape | reflexivity | discriminate
         | repeat constructor; lia ].

Section path_shape.
Context {Sc : Scalar}.
Implicit Types (A B : array2 num) (y : list Z) (pi : list num).

(** C7: for every valid input with [T] observations and [K] hidden states,
    [viterbi] returns a path with exactly [T] entries, each an integer in
    [[0, K)]. *)
Theorem viterbi_path_length_and_range y A B pi K N :
  valid_input y A B pi K N →
  ∃ path probability,
    viterbi y A B pi = Ok (path, probability) ∧
    length path = length y ∧
    Forall (λ s, (0 ≤ s < Z.of_nat K)%Z) path.
Proof.
  intros Hvalid.
  destruct (valid_input_spec y A B pi K N Hvalid)
    as (T1 & T2 & path & _ & Hvit & _ & _ & _ & Hlen & Hrange & _).
  exists path, (amax (column (length y - 1) T1)). split_and!; [done..|].
  apply Forall_lookup_2. intros t s Hs.
  pose proof (lookup_lt_Some _ _ _ Hs) as Ht.
  rewrite <- (list_lookup_total_correct _ _ _ Hs). apply Hrange. lia.
Qed.
End path_shape.

Section emission_factor.
Context {Sc : Scalar}.
Implicit Types (A B : array2 num) (y : list Z) (pi : list num).

End emission_factor.

(** ** What the decoder reads of the emission matrix *)

Lemma for_ext {X St} (l : list X) (s : St) body body' :
  (∀ x s, body x s = body' x s) → for_ l s body = for_ l s body'.
Proof.
  intros Hext. revert s. induction l as [|x l IH]; intros s; simpl; [done|].
  rewrite Hext. destruct (body' x s); cbn; [apply IH|done].
Qed.

Lemma getitem_Ok `{Inhabited X} (v : list X) i x :
  getitem v i = Ok x → ∃ j, j < length v ∧ x = v !!! j.
Proof.
  unfold getitem. destruct (py_index (length v) i) as [j|e] eqn:Hj; cbn; [|done].
  intros [= <-]. exists j. split; [|done]. by apply py_index_Ok in Hj as [? _].
Qed.

Section emission_columns.
Context {Sc : Scalar}.
Implicit Types (A B : array2 num) (y : list Z) (pi : list num).

(** C10: the output of [viterbi] depends on the emission matrix only through
    the columns selected by the symbols of the observation sequence: two
    emission matrices with the same column [emission[:, y[t]]] for every [t]
    give the same result. *)
Theorem viterbi_reads_observed_columns_only y A B B' pi :
  (∀ t, t < length y → getitem_col B (y !!! t) = getitem_col B' (y !!! t)) →
  viterbi y A B pi = viterbi y A B' pi.
Proof.
  intros Hcol.
  assert (viterbi_init y A B pi = viterbi_init y A B' pi) as Hinit.
  { unfold viterbi_init, assign_initial_scores. destruct (getitem y 0) as [y0|e] eqn:Hy0; cbn; [|done].
    apply getitem_Ok in Hy0 as (j & Hj & ->). by rewrite Hcol. }
  assert (∀ i tables, viterbi_step y A B i tables = viterbi_step y A B' i tables) as Hstep.
  { intros i [T1 T2]. unfold viterbi_step, assign_scores.
    destruct (getitem_col T1 _) as [prev|e]; cbn; [|done].
    destruct (mul12 prev _) as [X|e]; cbn; [|done].
    destruct (getitem y (Z.of_nat i)) as [yi|e] eqn:Hyi; cbn; [|done].
    apply getitem_Ok in Hyi as (j & Hj & ->). by rewrite Hcol. }
  unfold viterbi, viterbi_tables. rewrite Hinit.
  destruct (viterbi_init y A B' pi) as [tables|e]; cbn; [|done].
  by rewrite (for_ext _ _ _ _ Hstep).
Qed.
End emission_columns.

Lemma bind_Ok {X Y} (r : result X) (f : X → result Y) a : r = Ok a → (r ≫= f) = f a.
Proof. by intros ->. Qed.

(** C3: on the example of the notebook, [viterbi] returns the path [[0,0,1]]
    and a probability within 1e-6 of 0.01512, both on doubles and on exact
    rationals; on the single observation [[0]] the loop of the recurrence has
    no iteration (the tables are those of the initialisation) and the path is
    [[0]]. *)
Theorem viterbi_notebook_example :
  (∃ p, viterbi (H:=float64) Example.y Example.transition_matrix_f
          Example.emission_matrix_f Example.initial_state_f = Ok ([0; 0; 1]%Z, p) ∧
        PrimFloat.leb (PrimFloat.abs (p - 0.01512)) 1e-6 = true) ∧
  (∃ p, viterbi (H:=rational) Example.y Example.transition_matrix_q
          Example.emission_matrix_q Example.initial_state_q = Ok ([0; 0; 1]%Z, p) ∧
        p = Example.qc 1512 100000) ∧
  (range 1 (length [0%Z]) = [] ∧
   viterbi_tables (H:=float64) [0%Z] Example.transition_matrix_f
     Example.emission_matrix_f Example.initial_state_f
   = viterbi_init (H:=float64) [0%Z] Example.transition_matrix_f
       Example.emission_matrix_f Example.initial_state_f ∧
   (∃ p, viterbi (H:=float64) [0%Z] Example.transition_matrix_f
           Example.emission_matrix_f Example.initial_state_f = Ok ([0%Z], p)) ∧
   (∃ p, viterbi (H:=rational) [0%Z] Example.transition_matrix_q
           Example.emission_matrix_q Example.initial_state_q = Ok ([0%Z], p))).
Proof.
  split_and!.
  - eexists. split; [vm_compute; reflexivity|]. vm_compute. reflexivity.
  - eexists. split; [vm_compute; reflexivity|]. apply Qc_is_canon. vm_compute. reflexivity.
  - reflexivity.
  - vm_compute. reflexivity.
  - eexists. vm_compute. reflexivity.
  - eexists. vm_compute. reflexivity.
Qed.

(** ** The notebook's example satisfies the general statements *)

Lemma viterbi_path_length_and_range_example :
  ∃ path probability,
    viterbi (H:=rational) Example.y Example.transition_matrix_q Example.emission_matrix_q
      Example.initial_state_q = Ok (path, probability) ∧
    length path = length Example.y ∧
    Forall (λ s, (0 ≤ s < Z.of_nat 2)%Z) path.
Proof.
  apply (@viterbi_path_length_and_range rational _ _ _ _ 2 3). solve_valid.
Defined.


Lemma viterbi_reads_observed_columns_only_example :
  viterbi (H:=rational) [0; 1]%Z Example.transition_matrix_q
    (np_array [[Example.qc 5 10; Example.qc 4 10; Example.qc 1 10];
               [Example.qc 1 10; Example.qc 3 10; Example.qc 6 10]])
    Example.initial_state_q
  = viterbi (H:=rational) [0; 1]%Z Example.transition_matrix_q
      (np_array [[Example.qc 5 10; Example.qc 4 10; Example.qc 9 10];
                 [Example.qc 1 10; Example.qc 3 10; Example.qc 2 10]])
      Example.initial_state_q.
Proof.
  apply (@viterbi_reads_observed_columns_only rational).
  intros t Ht. destruct t as [|[|t]]; [reflexivity|reflexivity|simpl in Ht; lia].
Defined.

(** ** Where the statements of the specification fail *)

Ltac solve_wide_shape :=
  split; [reflexivity|split; [reflexivity|]];
  unfold wf_array2; apply (bool_decide_unpack _); vm_compute; exact I.

Ltac solve_wide_valid :=
  split; [discriminate | solve_wide_shape | solve_wide_shape | reflexivity | discriminate
         | repeat constructor; lia ].

(** A stored backpointer whose candidate is strictly below another candidate
    is not a maximiser. *)
Lemma not_first_argmax `{Scalar} (l : list num) j j' :
  j' < length l → sltb (l !!! j) (l !!! j') = true → ¬ is_first_argmax l j.
Proof.
  intros Hj' Hlt (v & Hv & Hmax & _).
  rewrite (list_lookup_total_correct _ _ _ Hv) in Hlt.
  assert (l !!! j' ∈ l) as Hin by (by apply list_elem_of_lookup_total_2).
  apply Hmax in Hin. unfold sle in Hin. congruence.
Qed.

(** The recurrence fails as soon as some stored backpointer is the index of a
    candidate that is strictly below another one. *)
Lemma recurrence_refuted `{Scalar} (y : list Z) (A B : array2 num) (pi : list num)
    K t k j j' :
  1 ≤ t < length y → k < K → j' < K →
  stored_and_compared y A B pi K t k j j' = Ok (Z.of_nat j, true) →
  ¬ recurrence_holds y A B pi K.
Proof.
  intros Ht Hk Hj' Hprobe (T1 & T2 & Htab & _ & Hrec).
  destruct (Hrec t k Ht Hk) as [_ (i & Hi & Hfirst)].
  unfold stored_and_compared in Hprobe.
  rewrite (bind_Ok _ _ _ Htab) in Hprobe. cbv beta iota in Hprobe.
  injection Hprobe as H0 Hlt.
  assert (i = j) as -> by lia.
  revert Hfirst. apply (not_first_argmax _ j j'); [|done].
  by rewrite candidates_length.
Qed.

(** C1 (defect of the code): with 257 states the chain started in state 256
    stays there, so the argmax for destination 256 at time 1 is source 256;
    the backpointer table holds unsigned bytes and the stored backpointer is
    0, a source whose candidate is strictly smaller: the recurrence of the
    backpointers does not hold. *)
Lemma backpointer_wraps_with_257_states :
  (valid_input (H:=float64) Chain.y Chain257.transition_f Chain257.emission_f
     Chain257.initial_f 257 1 ∧
   stored_and_argmax (H:=float64) Chain.y Chain257.transition_f Chain257.emission_f
     Chain257.initial_f 257 1 256 = Ok (0%Z, 256) ∧
   ¬ recurrence_holds (H:=float64) Chain.y Chain257.transition_f Chain257.emission_f
       Chain257.initial_f 257) ∧
  (valid_input (H:=rational) Chain.y Chain257.transition_q Chain257.emission_q
     Chain257.initial_q 257 1 ∧
   stored_and_argmax (H:=rational) Chain.y Chain257.transition_q Chain257.emission_q
     Chain257.initial_q 257 1 256 = Ok (0%Z, 256) ∧
   ¬ recurrence_holds (H:=rational) Chain.y Chain257.transition_q Chain257.emission_q
       Chain257.initial_q 257).
Proof.
  split; (split; [solve_wide_valid|split; [vm_compute; reflexivity|]]).
  - apply (recurrence_refuted _ _ _ _ 257 1 256 0 256); [simpl; lia|lia|lia|].
    vm_compute. reflexivity.
  - apply (recurrence_refuted _ _ _ _ 257 1 256 0 256); [simpl; lia|lia|lia|].
    vm_compute. reflexivity.
Qed.

Lemma tie_break_refuted `{Scalar} (y : list Z) (A B : array2 num) (pi : list num)
    K t k j j' :
  1 ≤ t < length y → k < K → j' < K →
  stored_and_compared y A B pi K t k j j' = Ok (Z.of_nat j, true) →
  ¬ lowest_index_tie_break y A B pi K.
Proof.
  intros Ht Hk Hj' Hprobe (T1 & T2 & path & p & Htab & _ & Hrec & _).
  destruct (Hrec t k Ht Hk) as (i & v & Hi & Hv & Hmax & _).
  unfold stored_and_compared in Hprobe.
  rewrite (bind_Ok _ _ _ Htab) in Hprobe. cbv beta iota in Hprobe.
  injection Hprobe as H0 Hlt.
  assert (i = j) as -> by lia.
  rewrite (list_lookup_total_correct _ _ _ Hv) in Hlt.
  assert (candidates T1 A K t k !!! j' ∈ candidates T1 A K t k) as Hin.
  { apply list_elem_of_lookup_total_2. by rewrite candidates_length. }
  apply Hmax in Hin. unfold sle in Hin. congruence.
Qed.

(** C5 (defect of the code): with 258 states the chain is in state 256 or
    257 with equal probability and both move to state 257, so sources 256
    and 257 tie for destination 257 at time 1 and 256 is the lowest-indexed
    maximiser; the byte stored as backpointer is 0, a source whose candidate
    is strictly smaller: the stored backpointer is not the lowest-indexed
    maximiser. *)
Lemma tie_break_wraps_with_258_states :
  (valid_input (H:=float64) Chain.y Chain258.transition_f Chain258.emission_f
     Chain258.initial_f 258 1 ∧
   first_and_tie (H:=float64) Chain.y Chain258.transition_f Chain258.emission_f
     Chain258.initial_f 258 1 257 256 257 = Ok (256, false, false) ∧
   stored_and_argmax (H:=float64) Chain.y Chain258.transition_f Chain258.emission_f
     Chain258.initial_f 258 1 257 = Ok (0%Z, 256) ∧
   ¬ lowest_index_tie_break (H:=float64) Chain.y Chain258.transition_f
       Chain258.emission_f Chain258.initial_f 258) ∧
  (valid_input (H:=rational) Chain.y Chain258.transition_q Chain258.emission_q
     Chain258.initial_q 258 1 ∧
   first_and_tie (H:=rational) Chain.y Chain258.transition_q Chain258.emission_q
     Chain258.initial_q 258 1 257 256 257 = Ok (256, false, false) ∧
   stored_and_argmax (H:=rational) Chain.y Chain258.transition_q Chain258.emission_q
     Chain258.initial_q 258 1 257 = Ok (0%Z, 256) ∧
   ¬ lowest_index_tie_break (H:=rational) Chain.y Chain258.transition_q
       Chain258.emission_q Chain258.initial_q 258).
Proof.
  split; (split; [solve_wide_valid|split; [vm_compute; reflexivity|]]);
    (split; [vm_compute; reflexivity|]).
  - apply (tie_break_refuted _ _ _ _ 258 1 257 0 256); [simpl; lia|lia|lia|].
    vm_compute. reflexivity.
  - apply (tie_break_refuted _ _ _ _ 258 1 257 0 256); [simpl; lia|lia|lia|].
    vm_compute. reflexivity.
Qed.

Lemma probability_is_joint_refuted `{Scalar} (y : list Z) (A B : array2 num)
    (pi : list num) path p :
  viterbi y A B pi = Ok (path, p) →
  sltb (joint_probability y A B pi path) p = true → sltb p p = false →
  ¬ probability_is_joint y A B pi.
Proof.
  intros Hvit Hlt Hirr (path' & p' & Hvit' & Hjoint).
  rewrite Hvit in Hvit'. injection Hvit' as <- <-.
  rewrite Hjoint in Hlt. congruence.
Qed.

Lemma probability_is_joint_refuted_probe `{Scalar} (y : list Z) (A B : array2 num)
    (pi : list num) :
  (∀ x : num, sltb x x = false) →
  joint_below_returned y A B pi = Ok true → ¬ probability_is_joint y A B pi.
Proof.
  intros Hirr Hprobe (path & p & Hvit & Hjoint). unfold joint_below_returned in Hprobe.
  rewrite (bind_Ok _ _ _ Hvit) in Hprobe. cbv beta iota in Hprobe.
  injection Hprobe as Hlt. rewrite Hjoint, Hirr in Hlt. done.
Qed.

(** C2 (defect of the code): with 257 states the chain started in state 256
    stays there with probability 1, which [viterbi] returns as probability;
    the final state 256 is stored in a byte as 0, the returned path is
    [[0, 0]], and the joint probability of that path is 0. *)
Lemma joint_probability_differs_with_257_states :
  (valid_input (H:=float64) Chain.y Chain257.transition_f Chain257.emission_f
     Chain257.initial_f 257 1 ∧
   viterbi (H:=float64) Chain.y Chain257.transition_f Chain257.emission_f
     Chain257.initial_f = Ok ([0; 0]%Z, 1%float) ∧
   joint_probability (H:=float64) Chain.y Chain257.transition_f Chain257.emission_f
     Chain257.initial_f [0; 0]%Z = 0%float ∧
   ¬ probability_is_joint (H:=float64) Chain.y Chain257.transition_f Chain257.emission_f
       Chain257.initial_f) ∧
  (valid_input (H:=rational) Chain.y Chain257.transition_q Chain257.emission_q
     Chain257.initial_q 257 1 ∧
   (∃ p, viterbi (H:=rational) Chain.y Chain257.transition_q Chain257.emission_q
           Chain257.initial_q = Ok ([0; 0]%Z, p) ∧ p = 1%Qc) ∧
   joint_probability (H:=rational) Chain.y Chain257.transition_q Chain257.emission_q
     Chain257.initial_q [0; 0]%Z = 0%Qc ∧
   ¬ probability_is_joint (H:=rational) Chain.y Chain257.transition_q Chain257.emission_q
       Chain257.initial_q).
Proof.
  split.
  - split; [solve_wide_valid|].
    split; [vm_compute; reflexivity|]. split; [vm_compute; reflexivity|].
    apply (probability_is_joint_refuted (H:=float64) _ _ _ _ [0; 0]%Z 1%float);
      vm_compute; reflexivity.
  - split; [solve_wide_valid|]. split.
    { eexists. split; [vm_compute; reflexivity|]. apply Qc_is_canon. vm_compute. reflexivity. }
    split; [apply Qc_is_canon; vm_compute; reflexivity|].
    apply (probability_is_joint_refuted_probe (H:=rational)); [apply Qc_ltb_irrefl|].
    vm_compute. reflexivity.
Qed.



(** In binary64 a positive emission factor can merge two candidates: with
    the factor 0.65 the candidates 0.10919999999999999 and
    0.10920000000000001 both give 0.070980000000000001, and the two argmaxes
    are 1 and 0. *)
Lemma rounding_changes_argmax :
  valid_input (H:=float64) Rounding.y Rounding.transition_matrix Rounding.emission_matrix
    Rounding.initial_state 2 2 ∧
  sltb (Scalar:=float64) szero (at2 Rounding.emission_matrix 0 (sym Rounding.y 1)) = true ∧
  keeps_order_at (H:=float64) Rounding.y Rounding.transition_matrix
    Rounding.emission_matrix Rounding.initial_state 2 1 0 = Ok false ∧
  argmax_pair (H:=float64) Rounding.y Rounding.transition_matrix Rounding.emission_matrix
    Rounding.initial_state 2 1 0 = Ok (1, 0).
Proof. split_and!; [solve_valid|vm_compute; reflexivity..]. Qed.

(** ** Failures

    [viterbi] has no validation stage: an input is refused where an array
    operation refuses it, with the exception of that operation. *)



Section failures.
Context `{Scalar}.
Implicit Types (A B : array2 num) (y : list Z) (pi : list num).








End failures.

Section failure_claims.
Context `{Scalar}.
Implicit Types (A B : array2 num) (y : list Z) (pi : list num).




End failure_claims.



(** ** The call on a store and the function on values *)

Module StoreFacts.
Import Store.

(** *** Running the statements *)

Section run.
Context `{Scalar}.
Implicit Types (h : heap) (l : loc).

Lemma run_bind {A B} (m : M A) (f : A → M B) h a h' :
  m h = (Ok a, h') → (m ≫= f) h = f a h'.
Proof. intros Hm. unfold mbind, store_bind, bind. by rewrite Hm. Qed.

Lemma run_read_ints h l v : h !! l = Some (Ints v) → read_ints l h = (Ok v, h).
Proof. intros Hl. unfold read_ints. by rewrite Hl. Qed.

Lemma run_read_float1 h l v : h !! l = Some (Float1 v) → read_float1 l h = (Ok v, h).
Proof. intros Hl. unfold read_float1. by rewrite Hl. Qed.

Lemma run_read_float2 h l X : h !! l = Some (Float2 X) → read_float2 l h = (Ok X, h).
Proof. intros Hl. unfold read_float2. by rewrite Hl. Qed.

Lemma run_read_byte1 h l v : h !! l = Some (Byte1 v) → read_byte1 l h = (Ok v, h).
Proof. intros Hl. unfold read_byte1. by rewrite Hl. Qed.

Lemma run_read_byte2 h l X : h !! l = Some (Byte2 X) → read_byte2 l h = (Ok X, h).
Proof. intros Hl. unfold read_byte2. by rewrite Hl. Qed.

Lemma run_store_initial_scores h y em pi T1 ys B p X :
  h !! y = Some (Ints ys) → h !! em = Some (Float2 B) → h !! pi = Some (Float1 p) →
  h !! T1 = Some (Float2 X) →
  store_initial_scores y em pi T1 h = assigned (assign_initial_scores ys B p X) h T1 Float2.
Proof.
  intros Hy Hem Hpi HT1. unfold store_initial_scores.
  rewrite (run_bind _ _ _ _ _ (run_read_float1 _ _ _ Hpi)).
  rewrite (run_bind _ _ _ _ _ (run_read_float2 _ _ _ Hem)).
  rewrite (run_bind _ _ _ _ _ (run_read_ints _ _ _ Hy)).
  rewrite (run_bind _ _ _ _ _ (run_read_float2 _ _ _ HT1)).
  unfold mbind, store_bind, bind, lift, write, assigned.
  by destruct (assign_initial_scores ys B p X).
Qed.

Lemma run_store_initial_backpointers h T2 Y :
  h !! T2 = Some (Byte2 Y) →
  store_initial_backpointers T2 h = assigned (setitem_col_scalar Y 0 0%Z) h T2 Byte2.
Proof.
  intros HT2. unfold store_initial_backpointers.
  rewrite (run_bind _ _ _ _ _ (run_read_byte2 _ _ _ HT2)).
  unfold mbind, store_bind, bind, lift, write, assigned.
  by destruct (setitem_col_scalar Y 0 0%Z).
Qed.

Lemma run_store_scores h y tm em T1 i ys A B X :
  h !! y = Some (Ints ys) → h !! tm = Some (Float2 A) → h !! em = Some (Float2 B) →
  h !! T1 = Some (Float2 X) →
  store_scores y tm em T1 i h = assigned (assign_scores ys A B i X) h T1 Float2.
Proof.
  intros Hy Htm Hem HT1. unfold store_scores.
  rewrite (run_bind _ _ _ _ _ (run_read_float2 _ _ _ HT1)).
  rewrite (run_bind _ _ _ _ _ (run_read_float2 _ _ _ Htm)).
  rewrite (run_bind _ _ _ _ _ (run_read_float2 _ _ _ Hem)).
  rewrite (run_bind _ _ _ _ _ (run_read_ints _ _ _ Hy)).
  unfold mbind, store_bind, bind, lift, write, assigned.
  by destruct (assign_scores ys A B i X).
Qed.

Lemma run_store_backpointers h tm T1 T2 i A X Y :
  h !! tm = Some (Float2 A) → h !! T1 = Some (Float2 X) → h !! T2 = Some (Byte2 Y) →
  store_backpointers tm T1 T2 i h = assigned (assign_backpointers A i X Y) h T2 Byte2.
Proof.
  intros Htm HT1 HT2. unfold store_backpointers.
  rewrite (run_bind _ _ _ _ _ (run_read_float2 _ _ _ HT1)).
  rewrite (run_bind _ _ _ _ _ (run_read_float2 _ _ _ Htm)).
  rewrite (run_bind _ _ _ _ _ (run_read_byte2 _ _ _ HT2)).
  unfold mbind, store_bind, bind, lift, write, assigned.
  by destruct (assign_backpointers A i X Y).
Qed.

Lemma run_store_final_state h T1 path T X v :
  h !! T1 = Some (Float2 X) → h !! path = Some (Byte1 v) →
  store_final_state T1 path T h = assigned (assign_final_state T X v) h path Byte1.
Proof.
  intros HT1 Hpath. unfold store_final_state.
  rewrite (run_bind _ _ _ _ _ (run_read_float2 _ _ _ HT1)).
  rewrite (run_bind _ _ _ _ _ (run_read_byte1 _ _ _ Hpath)).
  unfold mbind, store_bind, bind, lift, write, assigned.
  by destruct (assign_final_state T X v).
Qed.

Lemma run_store_backtrack h T2 path i Y v :
  h !! T2 = Some (Byte2 Y) → h !! path = Some (Byte1 v) →
  store_backtrack T2 path i h = assigned (backtrack_step Y i v) h path Byte1.
Proof.
  intros HT2 Hpath. unfold store_backtrack.
  rewrite (run_bind _ _ _ _ _ (run_read_byte1 _ _ _ Hpath)).
  rewrite (run_bind _ _ _ _ _ (run_read_byte2 _ _ _ HT2)).
  unfold mbind, store_bind, bind, lift, write, assigned.
  by destruct (backtrack_step Y i v).
Qed.
End run.

(** *** The loops on the store *)

Section loops.
Context `{Scalar}.
Implicit Types (h : heap) (l : loc).

Lemma lookup_with_tables_other h l1 l2 T1 T2 l o :
  h !! l = Some o → h !! l1 = None → h !! l2 = None →
  with_tables h l1 l2 T1 T2 !! l = Some o.
Proof.
  intros Hl H1 H2. unfold with_tables.
  rewrite !lookup_insert_ne by congruence. done.
Qed.

Lemma lookup_with_tables_1 h l1 l2 T1 T2 :
  l1 ≠ l2 → with_tables h l1 l2 T1 T2 !! l1 = Some (Float2 T1).
Proof.
  intros Hne. unfold with_tables.
  rewrite lookup_insert_ne by done. apply lookup_insert_eq.
Qed.

Lemma lookup_with_tables_2 h l1 l2 T1 T2 :
  with_tables h l1 l2 T1 T2 !! l2 = Some (Byte2 T2).
Proof. unfold with_tables. apply lookup_insert_eq. Qed.

Lemma with_tables_write_1 h l1 l2 T1 T2 X :
  l1 ≠ l2 → <[l1:=Float2 X]> (with_tables h l1 l2 T1 T2) = with_tables h l1 l2 X T2.
Proof.
  intros Hne. unfold with_tables.
  rewrite insert_insert_ne by done. by rewrite insert_insert_eq.
Qed.

Lemma with_tables_write_2 h l1 l2 T1 T2 Y :
  <[l2:=Byte2 Y]> (with_tables h l1 l2 T1 T2) = with_tables h l1 l2 T1 Y.
Proof. unfold with_tables. by rewrite insert_insert_eq. Qed.

Lemma run_forward_body h y tm em l1 l2 ys A B i T1 T2 :
  h !! y = Some (Ints ys) → h !! tm = Some (Float2 A) → h !! em = Some (Float2 B) →
  h !! l1 = None → h !! l2 = None → l1 ≠ l2 →
  ∃ h',
    (store_scores y tm em l1 i;; store_backpointers tm l1 l2 i) (with_tables h l1 l2 T1 T2)
    = (loop_result (viterbi_step ys A B i (T1, T2)), h') ∧
    ∀ T1' T2', viterbi_step ys A B i (T1, T2) = Ok (T1', T2') →
               h' = with_tables h l1 l2 T1' T2'.
Proof.
  intros Hy Htm Hem H1 H2 Hne.
  unfold mbind, store_bind, bind, viterbi_step.
  rewrite (run_store_scores _ y tm em l1 i ys A B T1);
    [|by apply lookup_with_tables_other..|by apply lookup_with_tables_1].
  destruct (assign_scores ys A B i T1) as [X|e]; cbn.
  2:{ eexists. split; [done|]. intros ?? [=]. }
  rewrite with_tables_write_1 by done.
  rewrite (run_store_backpointers _ tm l1 l2 i A X T2);
    [|by apply lookup_with_tables_other|by apply lookup_with_tables_1
     |by apply lookup_with_tables_2].
  destruct (assign_backpointers A i X T2) as [Y|e]; cbn.
  2:{ eexists. split; [done|]. intros ?? [=]. }
  rewrite with_tables_write_2.
  eexists. split; [done|]. by intros ?? [= <- <-].
Qed.

Lemma run_forward_loop h y tm em l1 l2 ys A B :
  h !! y = Some (Ints ys) → h !! tm = Some (Float2 A) → h !! em = Some (Float2 B) →
  h !! l1 = None → h !! l2 = None → l1 ≠ l2 →
  ∀ xs T1 T2, ∃ h',
    for_each xs (λ i, store_scores y tm em l1 i;; store_backpointers tm l1 l2 i)
      (with_tables h l1 l2 T1 T2)
    = (loop_result (for_ xs (T1, T2) (viterbi_step ys A B)), h') ∧
    ∀ T1' T2', for_ xs (T1, T2) (viterbi_step ys A B) = Ok (T1', T2') →
               h' = with_tables h l1 l2 T1' T2'.
Proof.
  intros Hy Htm Hem H1 H2 Hne.
  induction xs as [|i xs IH]; intros T1 T2.
  - eexists. split; [done|]. by intros T1' T2' [= <- <-].
  - cbn [for_each for_]. unfold bind at 1.
    destruct (run_forward_body h y tm em l1 l2 ys A B i T1 T2) as (h1 & -> & Hh1);
      try done.
    destruct (viterbi_step ys A B i (T1, T2)) as [[T1' T2']|e]; cbn.
    + rewrite (Hh1 T1' T2' eq_refl). apply IH.
    + eexists. split; [done|]. intros ?? [=].
Qed.

Lemma run_backward_loop h l2 lp T2 :
  h !! l2 = Some (Byte2 T2) → l2 ≠ lp →
  ∀ xs v, ∃ h',
    for_each xs (store_backtrack l2 lp) (<[lp:=Byte1 v]> h)
    = (loop_result (for_ xs v (backtrack_step T2)), h') ∧
    ∀ v', for_ xs v (backtrack_step T2) = Ok v' → h' = <[lp:=Byte1 v']> h.
Proof.
  intros H2 Hne.
  induction xs as [|i xs IH]; intros v.
  - eexists. split; [done|]. by intros v' [= <-].
  - cbn [for_each for_]. unfold bind at 1.
    rewrite (run_store_backtrack _ l2 lp i T2 v);
      [|by rewrite lookup_insert_ne|by apply lookup_insert_eq].
    destruct (backtrack_step T2 i v) as [v'|e]; cbn.
    + rewrite insert_insert_eq. apply IH.
    + eexists. split; [done|]. intros ? [=].
Qed.
End loops.

(** *** The call computes what the function on values computes *)

Section call.
Context `{Scalar}.
Implicit Types (h : heap) (l : loc).

Lemma run_bind_assigned {A B} (m : M unit) (f : unit → M B) h (r : result A) l o :
  m h = assigned r h l o →
  (m ≫= f) h = match r with Ok a => f tt (<[l:=o a]> h) | Raise e => (Raise e, h) end.
Proof.
  intros Hm. unfold mbind, store_bind, bind. rewrite Hm. by destruct r.
Qed.

Lemma run_bind_loop {A B} (m : M unit) (f : unit → M B) h (r : result A) h' :
  m h = (loop_result r, h') →
  (m ≫= f) h = match r with Ok _ => f tt h' | Raise e => (Raise e, h') end.
Proof.
  intros Hm. unfold mbind, store_bind, bind. rewrite Hm. by destruct r.
Qed.

Lemma fresh_lookup h : h !! fresh (dom h) = None.
Proof. apply not_elem_of_dom, is_fresh. Qed.

Lemma run_viterbi h y tm em pi ys A B p :
  holds_arguments h y tm em pi ys A B p →
  outcome (viterbi y tm em pi h)
  = ('(T1, T2) ← viterbi_tables ys A B p;
     path ← viterbi_path (length ys) T1 T2;
     probability ← best_probability (length ys) T1;
     Ok (path, probability)) ∧
  ∀ lp q h', viterbi y tm em pi h = (Ok (lp, q), h') →
    h !! lp = None ∧ ∃ path, h' !! lp = Some (Byte1 path).
Proof.
  intros (Hy & Htm & Hem & Hpi). unfold viterbi.
  rewrite (run_bind _ _ _ _ _ (run_read_float2 _ _ _ Htm)).
  rewrite (run_bind _ _ _ _ _ (run_read_ints _ _ _ Hy)).
  rewrite (run_bind (alloc _) _ h _ _ eq_refl).
  set (l1 := fresh (dom h)).
  assert (h !! l1 = None) as H1 by apply fresh_lookup.
  rewrite (run_bind (alloc _) _ _ _ _ eq_refl).
  set (Z1 := np_zeros2 (shape0 A) (length ys) szero).
  set (Z2 := np_zeros2 (shape0 A) (length ys) 0%Z).
  set (l2 := fresh (dom (<[l1:=Float2 Z1]> h))).
  assert (h !! l2 = None ∧ l1 ≠ l2) as [H2 Hne].
  { apply (lookup_insert_None h l1 l2 (Float2 Z1)). apply fresh_lookup. }
  fold (with_tables h l1 l2 Z1 Z2).
  unfold viterbi_tables, viterbi_init. fold Z1 Z2.
  rewrite (run_bind_assigned _ _ _ _ _ _
             (run_store_initial_scores _ y em pi l1 ys B p Z1
                (lookup_with_tables_other _ _ _ _ _ _ _ Hy H1 H2)
                (lookup_with_tables_other _ _ _ _ _ _ _ Hem H1 H2)
                (lookup_with_tables_other _ _ _ _ _ _ _ Hpi H1 H2)
                (lookup_with_tables_1 _ _ _ _ _ Hne))).
  destruct (assign_initial_scores ys B p Z1) as [X1|e]; cbn; [|split; [done|intros; done]].
  rewrite with_tables_write_1 by done.
  rewrite (run_bind_assigned _ _ _ _ _ _
             (run_store_initial_backpointers _ l2 Z2 (lookup_with_tables_2 _ _ _ _ _))).
  destruct (setitem_col_scalar Z2 0 0%Z) as [Y1|e]; cbn; [|split; [done|intros; done]].
  rewrite with_tables_write_2.
  destruct (run_forward_loop h y tm em l1 l2 ys A B Hy Htm Hem H1 H2 Hne
              (range 1 (length ys)) X1 Y1) as (h1 & Hloop & Hh1).
  rewrite (run_bind_loop _ _ _ _ _ Hloop).
  destruct (for_ (range 1 (length ys)) (X1, Y1) (viterbi_step ys A B))
    as [[T1 T2]|e]; cbn; [|split; [done|intros; done]].
  rewrite (Hh1 T1 T2 eq_refl).
  rewrite (run_bind (alloc _) _ _ _ _ eq_refl).
  set (ht := with_tables h l1 l2 T1 T2).
  set (lp := fresh (dom ht)).
  assert (ht !! lp = None) as Hp by apply fresh_lookup.
  assert (h !! lp = None ∧ l1 ≠ lp ∧ l2 ≠ lp) as (Hp0 & Hp1 & Hp2).
  { unfold ht, with_tables in Hp.
    apply lookup_insert_None in Hp as [Hp Hp2].
    apply lookup_insert_None in Hp as [Hp Hp1]. done. }
  assert (ht !! l1 = Some (Float2 T1)) as Ht1 by (by apply lookup_with_tables_1).
  assert (ht !! l2 = Some (Byte2 T2)) as Ht2 by apply lookup_with_tables_2.
  unfold viterbi_path.
  rewrite (run_bind_assigned _ _ _ _ _ _
             (run_store_final_state _ l1 lp (length ys) T1 (np_zeros1 (length ys) 0%Z)
                ltac:(by rewrite lookup_insert_ne) ltac:(by apply lookup_insert_eq))).
  destruct (assign_final_state (length ys) T1 (np_zeros1 (length ys) 0%Z)) as [v|e]; cbn;
    [|split; [done|intros; done]].
  rewrite insert_insert_eq.
  destruct (run_backward_loop ht l2 lp T2 Ht2 Hp2 (reverse (range 1 (length ys))) v)
    as (h2 & Hloop2 & Hh2).
  rewrite (run_bind_loop _ _ _ _ _ Hloop2).
  destruct (for_ (reverse (range 1 (length ys))) v (backtrack_step T2)) as [path|e]; cbn;
    [|split; [done|intros; done]].
  rewrite (Hh2 path eq_refl).
  rewrite (run_bind _ _ _ _ _ (run_read_float2 _ l1 T1 ltac:(by rewrite lookup_insert_ne))).
  unfold mbind at 1, store_bind, bind, lift.
  destruct (best_probability (length ys) T1) as [q|e]; cbn; [|split; [done|intros; done]].
  rewrite lookup_insert_eq. split; [done|].
  intros ??? [= <- _ <-]. split; [done|]. rewrite lookup_insert_eq. by eexists.
Qed.
End call.

(** *** The call leaves the objects of the caller alone *)

Section frame.
Context `{Scalar}.
Implicit Types (h : heap) (l : loc) (D : gset loc).

Lemma preserves_ret D {A} (a : A) : preserves D (ret a).
Proof. by intros h HD l Hl. Qed.

Lemma preserves_lift D {A} (r : result A) : preserves D (lift r).
Proof. by intros h HD l Hl. Qed.

Lemma preserves_read_ints D l : preserves D (read_ints l).
Proof. intros h HD l' Hl. unfold read_ints. by destruct (h !! l) as [[]|]. Qed.

Lemma preserves_read_float1 D l : preserves D (read_float1 l).
Proof. intros h HD l' Hl. unfold read_float1. by destruct (h !! l) as [[]|]. Qed.

Lemma preserves_read_float2 D l : preserves D (read_float2 l).
Proof. intros h HD l' Hl. unfold read_float2. by destruct (h !! l) as [[]|]. Qed.

Lemma preserves_read_byte1 D l : preserves D (read_byte1 l).
Proof. intros h HD l' Hl. unfold read_byte1. by destruct (h !! l) as [[]|]. Qed.

Lemma preserves_read_byte2 D l : preserves D (read_byte2 l).
Proof. intros h HD l' Hl. unfold read_byte2. by destruct (h !! l) as [[]|]. Qed.

(** A write preserves [D] when its target is not in [D]. *)
Lemma preserves_write D l o : l ∉ D → preserves D (write l o).
Proof.
  intros Hl h HD l' Hl'. unfold write; simpl.
  apply lookup_insert_ne. by intros ->.
Qed.

Lemma preserves_bind D {A B} (m : M A) (f : A → M B) :
  preserves D m → (∀ a, preserves D (f a)) → preserves D (bind m f).
Proof.
  intros Hm Hf h HD l Hl. unfold bind.
  specialize (Hm h HD). destruct (m h) as [[a|e] h1]; simpl in *; [|by apply Hm].
  rewrite <- (Hm l Hl). apply Hf; [|done].
  intros l' Hl'. apply elem_of_dom. rewrite (Hm l' Hl'). apply elem_of_dom. by apply HD.
Qed.

Lemma preserves_mbind D {A B} (m : M A) (f : A → M B) :
  preserves D m → (∀ a, preserves D (f a)) → preserves D (m ≫= f).
Proof. apply preserves_bind. Qed.

(** An allocated location is new: what follows may write to it. *)
Lemma preserves_alloc D {B} o (f : loc → M B) :
  (∀ l, l ∉ D → preserves D (f l)) → preserves D (alloc o ≫= f).
Proof.
  intros Hf h HD l Hl. unfold mbind, store_bind, bind, alloc.
  assert (fresh (dom h) ∉ D) as Hnew.
  { intros Hin. apply (is_fresh (dom h)). by apply HD. }
  rewrite (Hf _ Hnew).
  - apply lookup_insert_ne. by intros <-.
  - rewrite dom_insert. set_solver.
  - done.
Qed.

Lemma preserves_for_each D {X} (xs : list X) (body : X → M unit) :
  (∀ x, preserves D (body x)) → preserves D (for_each xs body).
Proof.
  intros Hbody. induction xs as [|x xs IH]; simpl.
  - apply preserves_ret.
  - apply preserves_bind; [apply Hbody|]. by intros _.
Qed.

Ltac preserves_step :=
  first
    [ apply preserves_alloc; intros ? ?
    | apply preserves_mbind; [|intros ?]
    | apply preserves_for_each; intros ?
    | apply preserves_read_ints | apply preserves_read_float1
    | apply preserves_read_float2 | apply preserves_read_byte1
    | apply preserves_read_byte2 | apply preserves_lift | apply preserves_ret
    | apply preserves_write; assumption ].

Lemma viterbi_preserves D y tm em pi : preserves D (viterbi y tm em pi).
Proof.
  unfold viterbi, store_initial_scores, store_initial_backpointers, store_scores,
    store_backpointers, store_final_state, store_backtrack.
  repeat preserves_step.
Qed.
End frame.

End StoreFacts.

(** ** Determinism and the frame of a call *)

Section call_claims.
Context `{Scalar}.
Implicit Types (h : Store.heap) (A B : array2 num) (ys : list Z) (pi : list num).

Lemma store_viterbi_outcome h y tm em p ys A B pi :
  Store.holds_arguments h y tm em p ys A B pi →
  Store.outcome (Store.viterbi y tm em p h) = viterbi ys A B pi.
Proof. intros Hargs. by destruct (StoreFacts.run_viterbi h y tm em p ys A B pi Hargs). Qed.

Lemma store_viterbi_subseteq h y tm em p : h ⊆ (Store.viterbi y tm em p h).2.
Proof.
  apply map_subseteq_spec. intros l o Hl.
  rewrite (StoreFacts.viterbi_preserves (dom h) y tm em p h); [done..|].
  apply elem_of_dom. by exists o.
Qed.

Lemma holds_arguments_subseteq h h' y tm em p ys A B pi :
  h ⊆ h' → Store.holds_arguments h y tm em p ys A B pi →
  Store.holds_arguments h' y tm em p ys A B pi.
Proof.
  intros Hsub (Hy & Htm & Hem & Hpi).
  split_and!; by eapply lookup_weaken.
Qed.

(** C8: [viterbi] is deterministic: two invocations whose arguments hold the
    same observations, transition matrix, emission matrix and initial
    distribution return the same path and the same probability (or raise the
    same exception), in whatever stores and at whatever locations the
    arguments are held; this is the result of the function on these values.
    In particular a second invocation in the store left by the first one
    returns what the first one returned. *)
Theorem viterbi_deterministic h1 h2 y1 tm1 em1 p1 y2 tm2 em2 p2 ys A B pi :
  Store.holds_arguments h1 y1 tm1 em1 p1 ys A B pi →
  Store.holds_arguments h2 y2 tm2 em2 p2 ys A B pi →
  Store.outcome (Store.viterbi y1 tm1 em1 p1 h1)
  = Store.outcome (Store.viterbi y2 tm2 em2 p2 h2) ∧
  Store.outcome (Store.viterbi y1 tm1 em1 p1 h1) = viterbi ys A B pi ∧
  Store.outcome (Store.viterbi y1 tm1 em1 p1 (Store.viterbi y1 tm1 em1 p1 h1).2)
  = Store.outcome (Store.viterbi y1 tm1 em1 p1 h1).
Proof.
  intros Hargs1 Hargs2.
  rewrite (store_viterbi_outcome _ _ _ _ _ _ _ _ _ Hargs1).
  rewrite (store_viterbi_outcome _ _ _ _ _ _ _ _ _ Hargs2).
  split_and!; [done..|].
  apply store_viterbi_outcome.
  eapply holds_arguments_subseteq; [apply store_viterbi_subseteq|done].
Qed.

(** C9: [viterbi] does not mutate its arguments: after the call, whether it
    returned or raised, every object that the store held before the call
    holds the value it held before, in particular the observation sequence,
    the transition matrix, the emission matrix and the initial distribution;
    the path that is returned is an array at a location that the call
    allocated. *)
Theorem viterbi_does_not_mutate_arguments h y tm em p :
  h ⊆ (Store.viterbi y tm em p h).2 ∧
  ∀ ys A B pi,
    Store.holds_arguments h y tm em p ys A B pi →
    Store.holds_arguments (Store.viterbi y tm em p h).2 y tm em p ys A B pi ∧
    ∀ lp q, (Store.viterbi y tm em p h).1 = Ok (lp, q) →
      h !! lp = None ∧ ∃ path, (Store.viterbi y tm em p h).2 !! lp = Some (Store.Byte1 path).
Proof.
  split; [apply store_viterbi_subseteq|].
  intros ys A B pi Hargs. split.
  - eapply holds_arguments_subseteq; [apply store_viterbi_subseteq|done].
  - intros lp q Hret.
    destruct (StoreFacts.run_viterbi h y tm em p ys A B pi Hargs) as [_ Hfresh].
    destruct (Store.viterbi y tm em p h) as [r h'] eqn:Hrun. simpl in *. subst r.
    by eapply Hfresh.
Qed.
End call_claims.

Lemma viterbi_deterministic_example :
  Store.outcome (Store.viterbi 1%positive 2%positive 3%positive 4%positive ExampleStore.store_a)
  = Store.outcome (Store.viterbi 12%positive 10%positive 11%positive 13%positive ExampleStore.store_b) ∧
  Store.outcome (Store.viterbi 1%positive 2%positive 3%positive 4%positive ExampleStore.store_a)
  = viterbi (H:=rational) Example.y Example.transition_matrix_q Example.emission_matrix_q
      Example.initial_state_q ∧
  Store.outcome (Store.viterbi 1%positive 2%positive 3%positive 4%positive (Store.viterbi 1%positive 2%positive 3%positive 4%positive ExampleStore.store_a).2)
  = Store.outcome (Store.viterbi 1%positive 2%positive 3%positive 4%positive ExampleStore.store_a).
Proof.
  refine (@viterbi_deterministic rational ExampleStore.store_a ExampleStore.store_b
            1%positive 2%positive 3%positive 4%positive
            12%positive 10%positive 11%positive 13%positive
            Example.y Example.transition_matrix_q Example.emission_matrix_q
            Example.initial_state_q _ _);
    (split; [reflexivity|split; [reflexivity|split; reflexivity]]).
Defined.

Lemma viterbi_does_not_mutate_arguments_example :
  ExampleStore.store_a ⊆ (Store.viterbi 1%positive 2%positive 3%positive 4%positive ExampleStore.store_a).2 ∧
  Store.holds_arguments (Store.viterbi 1%positive 2%positive 3%positive 4%positive ExampleStore.store_a).2 1%positive 2%positive 3%positive 4%positive
    Example.y Example.transition_matrix_q Example.emission_matrix_q
    Example.initial_state_q.
Proof.
  destruct (@viterbi_does_not_mutate_arguments rational ExampleStore.store_a 1%positive 2%positive 3%positive 4%positive)
    as [Hsub Hargs].
  split; [exact Hsub|].
  refine (proj1 (Hargs Example.y Example.transition_matrix_q Example.emission_matrix_q
                   Example.initial_state_q _)).
  split; [reflexivity|split; [reflexivity|split; reflexivity]].
Defined.

(** ** Further properties of the decoder

    What the forward pass and the backtrace compute, beyond the statements
    above: the shape of the tables, their causality, the termination and
    the backtrace, and how the edge cases of one observation, one state,
    negative symbols and an initial distribution of length 1 are
    handled. *)

Section tables.
Context {Sc : Scalar}.
Implicit Types (A B : array2 num) (y : list Z) (pi : list num).

(** The first column of the backpointer table is still zero after the loop. *)
Lemma viterbi_tables_sentinel y A B pi K N (T1 : array2 num) (T2 : array2 Z) :
  valid_input y A B pi K N → viterbi_tables y A B pi = Ok (T1, T2) →
  ∀ k, k < K → at2 T2 k 0 = 0%Z.
Proof.
  intros [HK HA HB Hpi Hy Hsym] Htab k Hk.
  assert (0 < length y) as HT by (destruct y; [done|simpl; lia]).
  assert (∀ t, t < length y → py_index N (y !!! t) = Ok (sym y t)) as Hidx.
  { intros t Ht. by apply valid_symbols_index. }
  unfold viterbi_tables in Htab.
  destruct (viterbi_init_spec y A B pi K K K N K (sym y 0) K)
    as (T1i & T2i & Hinit & HT1 & HT2 & Hzero & _); try done;
    [by apply Hidx|apply broadcast_dim_same|by left|].
  rewrite Hinit in Htab. cbn in Htab. unfold range in Htab.
  destruct (viterbi_loop_spec y A B K K K N (length y) (sym y) K HA HB eq_refl HK
              (broadcast_dim_same K) (or_introl eq_refl) (or_introl eq_refl)
              (length y - 1) 1 T1i T2i)
    as (T1f & T2f & Hloop & _ & _ & Hkeep & _);
    [lia|lia|done|done|intros; apply Hidx; lia| |].
  { intros k' t Hk' Ht. rewrite Hzero by done. lia. }
  rewrite Hloop in Htab. injection Htab as <- <-.
  destruct (Hkeep k 0) as [_ ->]; [done|lia|]. by apply Hzero.
Qed.
End tables.

Lemma valid_input_prefix `{Scalar} (y y' : list Z) (A B : array2 num) (pi : list num) K N :
  valid_input (y ++ y') A B pi K N → y ≠ [] → valid_input y A B pi K N.
Proof.
  intros [HK HA HB Hpi _ Hsym] Hy. split; try done.
  by apply Forall_app in Hsym as [? _].
Qed.

Lemma sym_app_l (y y' : list Z) t : t < length y → sym (y ++ y') t = sym y t.
Proof. intros Ht. unfold sym. by rewrite lookup_total_app_l. Qed.

Lemma column_items `{Inhabited X} (M : array2 X) m n j k :
  has_shape M m n → k < m → column j M !! k = Some (at2 M k j).
Proof.
  intros [Hm _] Hk.
  destruct (lookup_lt_is_Some_2 (column j M) k) as [x Hx]; [rewrite length_column; lia|].
  rewrite Hx. f_equal. rewrite <- (list_lookup_total_correct _ _ _ Hx).
  apply lookup_total_column. lia.
Qed.

Lemma py_index_wrap_symbol N s : py_index N (wrap_symbol N s) = py_index N s.
Proof.
  unfold py_index, wrap_symbol.
  repeat case_decide; try lia; try done.
Qed.

Lemma np_index_wrap_symbol N s : np_index N (wrap_symbol N s) = np_index N s.
Proof.
  unfold np_index. rewrite py_index_wrap_symbol.
  destruct (py_index N s) as [j|e] eqn:Hs; [done|]. f_equal.
  unfold wrap_symbol. case_decide as Hin; [|done].
  destruct (py_index_inside N s) as (j & Hj & _); [lia|congruence].
Qed.

Lemma getitem_fmap {X Y} `{Inhabited X, Inhabited Y} (f : X → Y) (v : list X) i :
  getitem (f <$> v) i = (getitem v i ≫= λ x, Ok (f x)).
Proof.
  unfold getitem. rewrite length_fmap.
  destruct (py_index (length v) i) as [j|e] eqn:Hj; cbn; [|done].
  apply py_index_Ok in Hj as [Hj _]. f_equal. by apply lookup_total_fmap_lt.
Qed.

Section further.
Context {Sc : Scalar}.
Implicit Types (A B : array2 num) (y : list Z) (pi : list num).

(** X2: for every valid input the two tables have [K] rows and [T] columns,
    the first column of the backpointer table is the sentinel 0 that the
    initialisation wrote, and every backpointer is a byte that is the index
    of a state. *)
Theorem viterbi_tables_shape_and_sentinel y A B pi K N :
  valid_input y A B pi K N →
  ∃ (T1 : array2 num) (T2 : array2 Z),
    viterbi_tables y A B pi = Ok (T1, T2) ∧
    has_shape T1 K (length y) ∧ has_shape T2 K (length y) ∧
    (∀ k, k < K → at2 T2 k 0 = 0%Z) ∧
    (∀ k t, k < K → t < length y →
       (0 ≤ at2 T2 k t < Z.of_nat K)%Z ∧ (at2 T2 k t < 256)%Z).
Proof.
  intros Hvalid.
  destruct (valid_input_spec y A B pi K N Hvalid)
    as (T1 & T2 & path & Htab & _ & [HT1 HT2] & _ & Hrec & _).
  pose proof (viterbi_tables_sentinel y A B pi K N T1 T2 Hvalid Htab) as Hzero.
  pose proof (valid_states _ _ _ _ _ _ Hvalid) as HK0.
  exists T1, T2. split_and!; [done..|].
  intros k t Hk Ht. destruct (decide (t = 0)) as [->|Hne].
  - rewrite Hzero by done. lia.
  - destruct (Hrec k t Hk) as [_ ->]; [lia|].
    assert (candidates T1 A K t k ≠ []) as Hc.
    { apply nonempty_length. by rewrite candidates_length. }
    pose proof (argmax_bound _ Hc) as Hlt. rewrite candidates_length in Hlt.
    pose proof (to_uint8_range (argmax (candidates T1 A K t k))).
    pose proof (to_uint8_le (argmax (candidates T1 A K t k))). lia.
Qed.

(** X3: for a single observation [s] the recurrence loop and the backtrace
    loop do not run and the transition matrix is not read: the path is the
    one state at which [initial[k] * emission[k, s]] is first greatest (as a
    byte) and the probability is that greatest product. *)
Theorem viterbi_single_observation s A B pi K N :
  valid_input [s] A B pi K N →
  viterbi [s] A B pi
  = Ok ([to_uint8 (argmax (initial_scores pi B K (Z.to_nat s)))],
        amax (initial_scores pi B K (Z.to_nat s))).
Proof.
  intros Hvalid.
  destruct (valid_input_spec [s] A B pi K N Hvalid)
    as (T1 & T2 & path & _ & Hvit & [HT1 _] & Hinit & _ & Hlen & _ & Hlast & _).
  simpl in Hvit, Hlast, Hlen.
  assert (column 0 T1 = initial_scores pi B K (Z.to_nat s)) as Hcol.
  { apply list_eq. intros k. destruct (decide (k < K)) as [Hk|Hk].
    - rewrite (column_items T1 K 1 0 k HT1 Hk), Hinit by done.
      unfold initial_scores. by rewrite list_lookup_fmap, lookup_seq_lt by done.
    - rewrite !lookup_ge_None_2; [done| |].
      + unfold initial_scores. rewrite length_fmap, length_seq. lia.
      + rewrite length_column. destruct HT1 as [-> _]. lia. }
  rewrite Hcol in Hvit, Hlast. rewrite Hvit. do 2 f_equal.
  destruct path as [|p [|??]]; simpl in Hlen; try lia. simpl in Hlast. by rewrite Hlast.
Qed.

(** X4: the forward pass is causal: the scores and backpointers of the first
    [t] observations are not changed by the observations that follow. *)
Theorem viterbi_tables_prefix y y' A B pi K N :
  valid_input (y ++ y') A B pi K N → y ≠ [] →
  ∃ (T1 T1' : array2 num) (T2 T2' : array2 Z),
    viterbi_tables y A B pi = Ok (T1, T2) ∧
    viterbi_tables (y ++ y') A B pi = Ok (T1', T2') ∧
    ∀ k t, k < K → t < length y →
      at2 T1 k t = at2 T1' k t ∧ at2 T2 k t = at2 T2' k t.
Proof.
  intros Hvalid' Hy.
  pose proof (valid_input_prefix y y' A B pi K N Hvalid' Hy) as Hvalid.
  destruct (valid_input_spec y A B pi K N Hvalid)
    as (T1 & T2 & _ & Htab & _ & _ & Hinit & Hrec & _).
  destruct (valid_input_spec (y ++ y') A B pi K N Hvalid')
    as (T1' & T2' & _ & Htab' & _ & _ & Hinit' & Hrec' & _).
  pose proof (viterbi_tables_sentinel _ _ _ _ _ _ _ _ Hvalid Htab) as Hzero.
  pose proof (viterbi_tables_sentinel _ _ _ _ _ _ _ _ Hvalid' Htab') as Hzero'.
  assert (0 < length y) as HT by (destruct y; [done|simpl; lia]).
  assert (∀ t, t < length y → t < length (y ++ y')) as Hlonger.
  { intros t Ht. rewrite length_app. lia. }
  assert (∀ t, t < length y → ∀ k, k < K → at2 T1 k t = at2 T1' k t) as Hscores.
  { induction t as [|t IH]; intros Ht k Hk.
    - rewrite Hinit, Hinit' by done. by rewrite sym_app_l.
    - destruct (Hrec k (S t) Hk) as [-> _]; [lia|].
      destruct (Hrec' k (S t) Hk) as [-> _]; [split; [lia|by apply Hlonger]|].
      rewrite sym_app_l by done. f_equal. apply full_candidates_ext.
      intros j Hj. replace (S t - 1) with t by lia. apply IH; [lia|done]. }
  exists T1, T1', T2, T2'. split_and!; [done..|].
  intros k t Hk Ht. split; [by apply Hscores|].
  destruct (decide (t = 0)) as [->|Hne]; [by rewrite Hzero, Hzero'|].
  destruct (Hrec k t Hk) as [_ ->]; [lia|].
  destruct (Hrec' k t Hk) as [_ ->]; [split; [lia|by apply Hlonger]|].
  f_equal. f_equal. apply candidates_ext. intros j Hj. apply Hscores; [lia|done].
Qed.

(** X5: a negative observation symbol is read as Python reads a negative
    index, from the end of the emission columns: replacing every symbol
    [s] in [[-N, 0)] by [s + N], where [N] is the number of emission columns,
    changes neither the result nor the exception of [viterbi]. *)
Theorem viterbi_reads_negative_symbols_from_the_end y A B pi :
  viterbi (wrap_symbol (shape1 B) <$> y) A B pi = viterbi y A B pi.
Proof.
  assert (∀ s, getitem_col B (wrap_symbol (shape1 B) s) = getitem_col B s) as Hcol.
  { intros s. unfold getitem_col. by rewrite np_index_wrap_symbol. }
  set (y' := wrap_symbol (shape1 B) <$> y).
  assert (length y' = length y) as Hlen by (unfold y'; by rewrite length_fmap).
  assert (viterbi_init y' A B pi = viterbi_init y A B pi) as Hinit.
  { unfold viterbi_init, assign_initial_scores. rewrite Hlen. unfold y'.
    rewrite getitem_fmap. destruct (getitem y 0) as [y0|e]; cbn; [|done].
    by rewrite Hcol. }
  assert (∀ i tables, viterbi_step y' A B i tables = viterbi_step y A B i tables) as Hstep.
  { intros i [T1 T2]. unfold viterbi_step, assign_scores.
    destruct (getitem_col T1 _) as [prev|e]; cbn; [|done].
    destruct (mul12 prev _) as [X|e]; cbn; [|done].
    unfold y'. rewrite getitem_fmap.
    destruct (getitem y (Z.of_nat i)) as [yi|e]; cbn; [|done].
    by rewrite Hcol. }
  unfold viterbi, viterbi_tables. rewrite Hinit, Hlen.
  destruct (viterbi_init y A B pi) as [tables|e]; cbn; [|done].
  by rewrite (for_ext _ _ _ _ Hstep).
Qed.
End further.

Section backtrace.
Context {Sc : Scalar}.
Implicit Types (A B : array2 num) (y : list Z) (pi : list num).

(** X6: termination and backtrace: for every valid input the returned
    probability is the final score of the state [f] at which the last column
    of the score table is first greatest, the last entry of the returned
    path is [f] as a byte, and the path is the chain of backpointers: each
    [path[t-1]] is the backpointer stored for state [path[t]] at time
    [t]. *)
Theorem viterbi_path_follows_backpointers y A B pi K N :
  valid_input y A B pi K N →
  ∃ (T1 : array2 num) (T2 : array2 Z) path probability f,
    viterbi_tables y A B pi = Ok (T1, T2) ∧
    viterbi y A B pi = Ok (path, probability) ∧
    f = argmax (column (length y - 1) T1) ∧ f < K ∧
    probability = at2 T1 f (length y - 1) ∧
    path !!! (length y - 1) = to_uint8 f ∧
    (∀ t, 1 ≤ t < length y → path !!! (t - 1) = at2 T2 (state path t) t).
Proof.
  intros Hvalid.
  destruct (valid_input_spec y A B pi K N Hvalid)
    as (T1 & T2 & path & Htab & Hvit & [HT1 _] & _ & _ & _ & _ & Hlast & Hback).
  pose proof (valid_states _ _ _ _ _ _ Hvalid) as HK0.
  set (last := column (length y - 1) T1) in *.
  assert (length last = K) as Hlen.
  { unfold last. rewrite length_column. by destruct HT1. }
  assert (last ≠ []) as Hne by (apply nonempty_length; lia).
  pose proof (argmax_bound last Hne) as Hk. rewrite Hlen in Hk.
  exists T1, T2, path, (amax last), (argmax last). split_and!; [done..| |done|done].
  pose proof (amax_at_argmax last Hne) as Ham.
  pose proof (column_items T1 K (length y) (length y - 1) (argmax last) HT1 Hk) as Hitem.
  fold last in Hitem. rewrite Hitem in Ham. by injection Ham.
Qed.

(** X7: with a single hidden state the path is all zeros and the
    probability is the product of the initial, emission and self-transition
    entries of the state, multiplied in the order of the recurrence. *)
Theorem viterbi_single_state y A B pi N :
  valid_input y A B pi 1 N →
  viterbi y A B pi
  = Ok (replicate (length y) 0%Z, single_state_score y A B pi (length y - 1)).
Proof.
  intros Hvalid.
  destruct (valid_input_spec y A B pi 1 N Hvalid)
    as (T1 & T2 & path & _ & Hvit & [HT1 _] & Hinit & Hrec & Hlen & Hrange & _).
  assert (0 < length y) as HT.
  { pose proof (valid_nonempty _ _ _ _ _ _ Hvalid). destruct y; [done|simpl; lia]. }
  assert (path = replicate (length y) 0%Z) as ->.
  { apply list_eq_same_length with (length y); [by rewrite length_replicate|done|].
    intros t x x' Ht Hx Hx'. apply lookup_replicate in Hx' as [-> _].
    specialize (Hrange t Ht). rewrite (list_lookup_total_correct _ _ _ Hx) in Hrange. lia. }
  assert (∀ t, t < length y → at2 T1 0 t = single_state_score y A B pi t) as Hscore.
  { induction t as [|t IH]; intros Ht; simpl.
    - apply Hinit. lia.
    - destruct (Hrec 0 (S t)) as [-> _]; [lia..|].
      unfold full_candidates. simpl. by rewrite Nat.sub_0_r, IH by lia. }
  rewrite Hvit. do 2 f_equal. rewrite <- Hscore by lia.
  assert (column (length y - 1) T1 = [at2 T1 0 (length y - 1)]) as ->; [|done].
  apply list_eq. intros [|k]; simpl.
  - apply (column_items T1 1 (length y)); [done|lia].
  - apply lookup_ge_None_2. rewrite length_column. destruct HT1 as [-> _]. lia.
Qed.
End backtrace.

Lemma to_uint8_small n : n < 256 → to_uint8 n = Z.of_nat n.
Proof. intros Hn. unfold to_uint8. apply Z.mod_small. lia. Qed.

Section forward_recurrence.
Context {Sc : Scalar}.
Implicit Types (A B : array2 num) (y : list Z) (pi : list num).

(** X10: for every valid input with at most 256 hidden states the tables
    that the forward pass leaves satisfy the recurrence as the code computes
    it: [score[k,0] = initial[k] * emission[k, y[0]]] and, for every time
    [t] in [1..T-1], [score[k,t]] is the maximum that [np.max] takes over
    the sources [j] of
    [(score[j,t-1] * transition[j,k]) * emission[k, y[t]]] and
    [backpointer[k,t]] is the index that [np.argmax] takes over the sources
    [j] of [score[j,t-1] * transition[j,k]]; no later iteration overwrites
    them. *)
Theorem viterbi_tables_follow_recurrence y A B pi K N :
  valid_input y A B pi K N → K ≤ 256 →
  ∃ (T1 : array2 num) (T2 : array2 Z),
    viterbi_tables y A B pi = Ok (T1, T2) ∧
    (∀ k, k < K → at2 T1 k 0 = smul (pi !!! k) (at2 B k (sym y 0))) ∧
    (∀ t k, 1 ≤ t < length y → k < K →
       at2 T1 k t = amax (full_candidates T1 A B K t k (sym y t)) ∧
       at2 T2 k t = Z.of_nat (argmax (candidates T1 A K t k))).
Proof.
  intros Hvalid HK.
  destruct (valid_input_spec y A B pi K N Hvalid)
    as (T1 & T2 & path & Htab & _ & _ & Hinit & Hrec & _).
  pose proof (valid_states _ _ _ _ _ _ Hvalid) as HK0.
  exists T1, T2. split_and!; [done..|].
  intros t k Ht Hk. destruct (Hrec k t Hk Ht) as [HT1 HT2]. split; [done|].
  rewrite HT2. apply to_uint8_small.
  assert (candidates T1 A K t k ≠ []) as Hne.
  { apply nonempty_length. by rewrite candidates_length. }
  pose proof (argmax_bound _ Hne) as Hlt. rewrite candidates_length in Hlt. lia.
Qed.
End forward_recurrence.

Section broadcast_initial.
Context {Sc : Scalar}.
Implicit Types (A B : array2 num) (y : list Z) (pi : list num).

Lemma mul1_singleton p (e : list num) :
  mul1 [p] e = mul1 (replicate (length e) p) e.
Proof.
  unfold mul1. rewrite length_replicate, broadcast_dim_same. cbn [length].
  unfold broadcast_dim. destruct (decide (1 = length e)) as [H1|H1]; cbn.
  - rewrite <- H1. done.
  - rewrite decide_True by done. cbn. f_equal. f_equal.
    unfold stretch. rewrite length_replicate. cbn [length].
    rewrite decide_False by done. rewrite decide_True by done. done.
Qed.

(** X9: an initial distribution of length 1 is not refused: its entry is
    broadcast to every state, so the call gives what it gives for the
    initial distribution that repeats that entry once per row of the
    emission matrix. *)
Theorem viterbi_broadcasts_single_initial y A B p :
  viterbi y A B [p] = viterbi y A B (replicate (shape0 B) p).
Proof.
  assert (viterbi_init y A B [p] = viterbi_init y A B (replicate (shape0 B) p)) as Hinit.
  { unfold viterbi_init, assign_initial_scores.
    destruct (getitem y 0) as [y0|e]; cbn; [|done].
    unfold getitem_col. destruct (np_index (shape1 B) y0) as [j|e]; cbn; [|done].
    rewrite mul1_singleton. by rewrite length_column. }
  unfold viterbi, viterbi_tables. by rewrite Hinit.
Qed.
End broadcast_initial.

(** ** The notebook's example satisfies the further properties *)

Lemma viterbi_path_follows_backpointers_example :
  ∃ (T1 : array2 (@num float64)) (T2 : array2 Z) path probability f,
    viterbi_tables (H:=float64) Example.y Example.transition_matrix_f
      Example.emission_matrix_f Example.initial_state_f = Ok (T1, T2) ∧
    viterbi (H:=float64) Example.y Example.transition_matrix_f Example.emission_matrix_f
      Example.initial_state_f = Ok (path, probability) ∧
    f = argmax (H:=float64) (column (length Example.y - 1) T1) ∧ f < 2 ∧
    probability = at2 T1 f (length Example.y - 1) ∧
    path !!! (length Example.y - 1) = to_uint8 f ∧
    (∀ t, 1 ≤ t < length Example.y → path !!! (t - 1) = at2 T2 (state path t) t).
Proof.
  apply (@viterbi_path_follows_backpointers float64 _ _ _ _ 2 3). solve_valid.
Defined.

Lemma viterbi_tables_shape_and_sentinel_example :
  ∃ (T1 : array2 (@num float64)) (T2 : array2 Z),
    viterbi_tables (H:=float64) Example.y Example.transition_matrix_f
      Example.emission_matrix_f Example.initial_state_f = Ok (T1, T2) ∧
    has_shape T1 2 (length Example.y) ∧ has_shape T2 2 (length Example.y) ∧
    (∀ k, k < 2 → at2 T2 k 0 = 0%Z) ∧
    (∀ k t, k < 2 → t < length Example.y →
       (0 ≤ at2 T2 k t < Z.of_nat 2)%Z ∧ (at2 T2 k t < 256)%Z).
Proof.
  apply (@viterbi_tables_shape_and_sentinel float64 _ _ _ _ 2 3). solve_valid.
Defined.

Lemma viterbi_tables_prefix_example :
  ∃ (T1 T1' : array2 (@num float64)) (T2 T2' : array2 Z),
    viterbi_tables (H:=float64) [0; 1]%Z Example.transition_matrix_f
      Example.emission_matrix_f Example.initial_state_f = Ok (T1, T2) ∧
    viterbi_tables (H:=float64) ([0; 1]%Z ++ [2]%Z) Example.transition_matrix_f
      Example.emission_matrix_f Example.initial_state_f = Ok (T1', T2') ∧
    ∀ k t, k < 2 → t < length [0; 1]%Z →
      at2 T1 k t = at2 T1' k t ∧ at2 T2 k t = at2 T2' k t.
Proof.
  apply (@viterbi_tables_prefix float64 _ _ _ _ _ 2 3); [solve_valid|discriminate].
Defined.

Lemma viterbi_single_observation_example :
  viterbi (H:=float64) [1]%Z Example.transition_matrix_f Example.emission_matrix_f
    Example.initial_state_f
  = Ok ([to_uint8 (argmax (initial_scores Example.initial_state_f
                             Example.emission_matrix_f 2 (Z.to_nat 1)))],
        amax (initial_scores Example.initial_state_f Example.emission_matrix_f 2
                (Z.to_nat 1))).
Proof.
  apply (@viterbi_single_observation float64 _ _ _ _ 2 3). solve_valid.
Defined.

Lemma viterbi_single_state_example :
  viterbi (H:=float64) SingleState.y SingleState.transition_matrix
    SingleState.emission_matrix SingleState.initial_state
  = Ok (replicate (length SingleState.y) 0%Z,
        single_state_score SingleState.y SingleState.transition_matrix
          SingleState.emission_matrix SingleState.initial_state
          (length SingleState.y - 1)).
Proof.
  apply (@viterbi_single_state float64 _ _ _ _ 2). solve_valid.
Defined.

Lemma viterbi_tables_follow_recurrence_example :
  ∃ (T1 : array2 (@num float64)) (T2 : array2 Z),
    viterbi_tables (H:=float64) Example.y Example.transition_matrix_f
      Example.emission_matrix_f Example.initial_state_f = Ok (T1, T2) ∧
    (∀ k, k < 2 →
       at2 T1 k 0 = smul (Scalar:=float64) (Example.initial_state_f !!! k)
                      (at2 Example.emission_matrix_f k (sym Example.y 0))) ∧
    (∀ t k, 1 ≤ t < length Example.y → k < 2 →
       at2 T1 k t
       = amax (H:=float64)
           (full_candidates T1 Example.transition_matrix_f Example.emission_matrix_f
              2 t k (sym Example.y t)) ∧
       at2 T2 k t
       = Z.of_nat (argmax (H:=float64) (candidates T1 Example.transition_matrix_f 2 t k))).
Proof.
  apply (@viterbi_tables_follow_recurrence float64 _ _ _ _ 2 3); [solve_valid|lia].
Defined.
